(** * A shallow embedding of the recursive-descent parser of SimpleCompiler
    (src/parser/parser.cpp) and of its AST (ast.h).

    The token cursor ([Parser::token], [Parser::next]) is modelled as the list
    of tokens not yet consumed: its head is the lookahead token, and [next]
    drops it.  Every grammar rule is a function from that list to a [Res]:
    either a node together with the remaining tokens, or [Exit c] for a call to
    [exit(c)].  The mutual recursion of the grammar rules is bounded by a fuel
    argument; running out of fuel is the separate outcome [OutOfFuel], which
    the C++ code does not have. *)

From Stdlib Require Import String List ZArith Bool Lia.
Import ListNotations.
Set Warnings "-register-all".

(** ** Tokens *)

(** Modelled from the spec: the lexer (token tags and payloads) is not part of
    src/.  Tokens with an identifier payload carry a name, literal tokens carry
    an integer value, all others carry only a tag; [END] is the tag seen once
    the stream is exhausted. *)
Inductive Tag :=
| NUM | ID
| ADD | SUB | MUL | DIV | MOD
| LT | LE | GT | GE | EQ | NE | AND | OR | NOT | ASSIGN
| LPAREN | RPAREN | LBRACKET | RBRACKET | LBRACE | RBRACE | COMMA | SEMICON
| KW_INT | KW_VOID | KW_CHAR | KW_CONST
| KW_IF | KW_ELSE | KW_WHILE | KW_BREAK | KW_CONTINUE | KW_RETURN
| END.

Scheme Equality for Tag.

Inductive token :=
| Num_tok (val : Z)
| Id_tok (name : string)
| Word (t : Tag).

Definition tag_of (t : token) : Tag :=
  match t with
  | Num_tok _ => NUM
  | Id_tok _ => ID
  | Word g => g
  end.

(** The payloads read by the casts [(Num* )token] and [(Id* )token]. *)
Definition num_val (t : token) : Z :=
  match t with Num_tok v => v | _ => 0%Z end.

Definition id_name (t : token) : string :=
  match t with Id_tok s => s | _ => EmptyString end.

(** ** Operators *)

Inductive Operator :=
| add_op | sub_op | mul_op | div_op | mod_op
| lt_op | le_op | gt_op | ge_op | equ_op | nequ_op
| and_op | or_op | not_op.

Scheme Equality for Operator.

(** Modelled from the spec: [tag_to_op] belongs to the lexer, which is not in
    src/.  Each operator token is mapped to its operator; [None] stands for the
    value returned for a tag that names no operator, which is in no tier's
    operator set. *)
Definition tag_to_op (g : Tag) : option Operator :=
  match g with
  | ADD => Some add_op | SUB => Some sub_op | MUL => Some mul_op
  | DIV => Some div_op | MOD => Some mod_op
  | LT => Some lt_op | LE => Some le_op | GT => Some gt_op | GE => Some ge_op
  | EQ => Some equ_op | NE => Some nequ_op
  | AND => Some and_op | OR => Some or_op | NOT => Some not_op
  | _ => None
  end.

(** ** AST (ast.h) *)

Inductive VarType := var_t | array_t.
Inductive Ty := int_t | char_t | void_t.
Inductive Control := break_c | continue_c | return_c.

Inductive AST :=
| CompUnitAST (units : list AST)
| StmtAST (stmt : AST)
| FuncDefAST (type : Ty) (name : string) (params : list AST) (body : AST)
| FuncCallAST (name : string) (args : list AST)
| VarDeclAST (isConst : bool) (vars : list AST)
| VarDefAST (isConst : bool) (var : AST) (initVal : option AST)
| IdAST (name : string) (type : VarType) (isConst : bool) (dim : list AST)
| InitValAST (type : VarType) (values : list AST)
| BlockAST (stmts : list AST)
| BinaryAST (op : Operator) (left right : AST)
| UnaryAST (op : Operator) (exp : AST)
| NumAST (val : Z)
| IfAST (conditionExp thenAST : AST) (elseAST : option AST)
| WhileAST (conditionExp body : AST)
| ControlAST (type : Control) (returnStmt : option AST)
| AssignAST (left right : AST)
| LValAST (name : string) (type : VarType) (position : list AST)
| EmptyAST.

(** ** The token cursor and the result of a grammar rule *)

Inductive Res (A : Type) :=
| Ok (a : A) (rest : list token)
| Exit (code : Z)
| OutOfFuel.

Arguments Ok {A} a rest.
Arguments Exit {A} code.
Arguments OutOfFuel {A}.

Definition parser (A : Type) := list token -> Res A.

Definition bind {A B : Type} (m : Res A) (k : A -> list token -> Res B) : Res B :=
  match m with
  | Ok a ts => k a ts
  | Exit c => Exit c
  | OutOfFuel => OutOfFuel
  end.

Notation "'let*' x ts ':=' m 'in' k" := (bind m (fun x ts => k))
  (at level 200, x name, ts name, m at level 100, k at level 200).

(** [Parser::token]: the lookahead. *)
Definition cur (ts : list token) : token :=
  match ts with [] => Word END | t :: _ => t end.

(** [Parser::next]. *)
Definition next (ts : list token) : list token := tl ts.

(** [Parser::match_token]. *)
Definition match_token (g : Tag) (ts : list token) : bool :=
  Tag_beq (tag_of (cur ts)) g.

(** Modelled from the spec: [lexer.is_done()] reports the end of the token
    stream. *)
Definition is_done (ts : list token) : bool :=
  match ts with [] => true | _ => false end.

(** [dynamic_cast<LValAST * >(exp.get())] succeeds. *)
Definition is_lval (e : AST) : bool :=
  match e with LValAST _ _ _ => true | _ => false end.

(** ** The loops of the grammar rules

    Each [while] loop of the source is a combinator over the grammar rule it
    calls, with its own fuel. *)

(** The loop of [Parser::binary]: [find(ops, tag_to_op(token->tag))]. *)
Definition tier_op (ops : list Operator) (ts : list token) : option Operator :=
  match tag_to_op (tag_of (cur ts)) with
  | Some op => if existsb (Operator_beq op) ops then Some op else None
  | None => None
  end.

Fixpoint binary_loop (fuel : nat) (p : parser AST) (ops : list Operator)
    (lhs : AST) (ts : list token) : Res AST :=
  match tier_op ops ts with
  | None => Ok lhs ts
  | Some op =>
      match fuel with
      | O => OutOfFuel
      | S f =>
          let* rhs ts := p (next ts) in
          binary_loop f p ops (BinaryAST op lhs rhs) ts
      end
  end.

(** [Parser::binary]; the [if (!lhs)] and [if (!rhs)] tests never fire,
    since a grammar rule either returns a node or exits. *)
Definition binary (fuel : nat) (p : parser AST) (ops : list Operator)
    (ts : list token) : Res AST :=
  let* lhs ts := p ts in
  binary_loop fuel p ops lhs ts.

(** [while (match_token(COMMA)) { next(); x = p(); push_back(x); }] *)
Fixpoint comma_more (fuel : nat) (p : parser AST) (acc : list AST)
    (ts : list token) : Res (list AST) :=
  if match_token COMMA ts then
    match fuel with
    | O => OutOfFuel
    | S f =>
        let* x ts := p (next ts) in
        comma_more f p (acc ++ [x]) ts
    end
  else Ok acc ts.

(** [while (true) { x = p(); push_back(x); if (!match_token(COMMA)) break;
    next(); }] *)
Definition comma_list (fuel : nat) (p : parser AST) (ts : list token)
    : Res (list AST) :=
  let* x ts := p ts in
  comma_more fuel p [x] ts.

(** [while (match_token(LBRACKET)) { next(); e = binary_add(); push_back(e);
    if (!match_token(RBRACKET)) exit(code); next(); }] *)
Fixpoint bracket_dims (fuel : nat) (p : parser AST) (code : Z)
    (acc : list AST) (ts : list token) : Res (list AST) :=
  if match_token LBRACKET ts then
    match fuel with
    | O => OutOfFuel
    | S f =>
        let* e ts := p (next ts) in
        if match_token RBRACKET ts then bracket_dims f p code (acc ++ [e]) (next ts)
        else Exit code
    end
  else Ok acc ts.

(** The loop of [Parser::block]. *)
Fixpoint block_loop (fuel : nat) (decl stmt : parser AST) (acc : list AST)
    (ts : list token) : Res (list AST) :=
  if match_token RBRACE ts then Ok acc ts
  else
    match fuel with
    | O => OutOfFuel
    | S f =>
        if match_token KW_CONST ts || match_token KW_INT ts then
          let* var ts := decl ts in
          block_loop f decl stmt (acc ++ [var]) ts
        else
          let* s ts := stmt ts in
          block_loop f decl stmt (acc ++ [s]) ts
    end.

(** The [switch (temp)] of [Parser::statement]; its [default] is unreachable,
    since [temp] is one of the three keywords. *)
Definition control_of (g : Tag) : Control :=
  match g with
  | KW_BREAK => break_c
  | KW_CONTINUE => continue_c
  | _ => return_c
  end.

(** ** The grammar rules

    The null checks that follow calls to grammar rules ([if (!exp) exit(..)])
    never fire, since a rule either returns a node or exits; they are left
    out. *)
Fixpoint unary (n : nat) (ts : list token) {struct n} : Res AST :=
  match n with
  | O => OutOfFuel
  | S n' =>
      if match_token LPAREN ts then
        (* ( EXP ) *)
        let* exp ts := binary_add n' (next ts) in
        if negb (match_token RPAREN ts) then Exit 102%Z
        else Ok exp (next ts)
      else if match_token NUM ts then
        Ok (NumAST (num_val (cur ts))) (next ts)
      else if match_token ADD ts then
        let* exp ts := unary n' (next ts) in
        Ok (UnaryAST add_op exp) ts
      else if match_token SUB ts then
        let* exp ts := unary n' (next ts) in
        Ok (UnaryAST sub_op exp) ts
      else if match_token NOT ts then
        let* exp ts := unary n' (next ts) in
        Ok (UnaryAST not_op exp) ts
      else if match_token ID ts then
        let name := id_name (cur ts) in
        let ts := next ts in
        if match_token LPAREN ts then
          let ts := next ts in
          if match_token RPAREN ts then Ok (FuncCallAST name []) (next ts)
          else
            let* params ts := comma_list n' (binary_add n') ts in
            if negb (match_token RPAREN ts) then Exit 107%Z
            else Ok (FuncCallAST name params) (next ts)
        else if match_token LBRACKET ts then
          let* position ts := bracket_dims n' (binary_add n') 108%Z [] ts in
          Ok (LValAST name array_t position) ts
        else Ok (LValAST name var_t []) ts
      else Exit 55%Z
  end

with binary_mul (n : nat) (ts : list token) {struct n} : Res AST :=
  match n with
  | O => OutOfFuel
  | S n' => binary n' (unary n') [mul_op; div_op; mod_op] ts
  end

with binary_add (n : nat) (ts : list token) {struct n} : Res AST :=
  match n with
  | O => OutOfFuel
  | S n' => binary n' (binary_mul n') [add_op; sub_op] ts
  end.

Definition binary_relation (n : nat) (ts : list token) : Res AST :=
  match n with
  | O => OutOfFuel
  | S n' => binary n' (binary_add n') [gt_op; ge_op; le_op; le_op] ts
  end.

Definition binary_eq (n : nat) (ts : list token) : Res AST :=
  match n with
  | O => OutOfFuel
  | S n' => binary n' (binary_relation n') [equ_op; nequ_op] ts
  end.

Definition binary_and (n : nat) (ts : list token) : Res AST :=
  match n with
  | O => OutOfFuel
  | S n' => binary n' (binary_eq n') [and_op] ts
  end.

Definition binary_or (n : nat) (ts : list token) : Res AST :=
  match n with
  | O => OutOfFuel
  | S n' => binary n' (binary_and n') [or_op] ts
  end.

Fixpoint init_val (n : nat) (ts : list token) {struct n} : Res AST :=
  match n with
  | O => OutOfFuel
  | S n' =>
      if match_token LBRACE ts then
        let ts := next ts in
        if match_token RBRACE ts then Ok (InitValAST array_t []) (next ts)
        else
          let* inits ts := comma_list n' (init_val n') ts in
          if negb (match_token RBRACE ts) then Exit 998%Z
          else Ok (InitValAST array_t inits) (next ts)
      else
        let* exp ts := binary_add n' ts in
        Ok (InitValAST var_t [exp]) ts
  end.

Definition var_def (n : nat) (isConst : bool) (ts : list token) : Res AST :=
  match n with
  | O => OutOfFuel
  | S n' =>
      if negb (match_token ID ts) then Exit 452%Z
      else
        let name := id_name (cur ts) in
        let* dims ts := bracket_dims n' (binary_add n') 454%Z [] (next ts) in
        let var := match dims with
                   | [] => IdAST name var_t isConst []
                   | _ => IdAST name array_t isConst dims
                   end in
        if match_token ASSIGN ts then
          let* init ts := init_val n' (next ts) in
          Ok (VarDefAST isConst var (Some init)) ts
        else if isConst then Exit 457%Z
        else Ok (VarDefAST isConst var None) ts
  end.

Definition var_decl (n : nat) (ts : list token) : Res AST :=
  match n with
  | O => OutOfFuel
  | S n' =>
      let isConst := match_token KW_CONST ts in
      let ts := if isConst then next ts else ts in
      if negb (match_token KW_INT ts) then Exit 450%Z
      else
        let* vars ts := comma_list n' (var_def n' isConst) (next ts) in
        if negb (match_token SEMICON ts) then Exit 452%Z
        else Ok (VarDeclAST isConst vars) (next ts)
  end.

Fixpoint statement (n : nat) (ts : list token) {struct n} : Res AST :=
  match n with
  | O => OutOfFuel
  | S n' =>
      if match_token SEMICON ts then Ok (StmtAST EmptyAST) (next ts)
      else if match_token LBRACE ts then
        let* body ts := block n' ts in Ok (StmtAST body) ts
      else if match_token KW_WHILE ts then
        let* stmt ts := while_loop n' ts in Ok (StmtAST stmt) ts
      else if match_token KW_IF ts then
        let* stmt ts := if_else n' ts in Ok (StmtAST stmt) ts
      else if match_token KW_BREAK ts || match_token KW_CONTINUE ts
              || match_token KW_RETURN ts then
        let temp := tag_of (cur ts) in
        let ts := next ts in
        if Tag_beq (tag_of (cur ts)) SEMICON then
          (* break; return; continue; *)
          Ok (StmtAST (ControlAST (control_of temp) None)) (next ts)
        else
          (* return exp; *)
          let* return_exp ts := binary_add n' ts in
          if negb (match_token SEMICON ts) then Exit 110%Z
          else Ok (StmtAST (ControlAST return_c (Some return_exp))) (next ts)
      else
        let* exp ts := binary_add n' ts in
        if is_lval exp then
          if match_token ASSIGN ts then
            (* LVal = exp; *)
            let* rhs ts := binary_add n' (next ts) in
            if negb (match_token SEMICON ts) then Exit 113%Z
            else Ok (StmtAST (AssignAST exp rhs)) (next ts)
          else if match_token SEMICON ts then Ok (StmtAST exp) (next ts)
          else Exit 114%Z
        else
          if negb (match_token SEMICON ts) then Exit 115%Z
          else Ok (StmtAST exp) (next ts)
  end

with if_else (n : nat) (ts : list token) {struct n} : Res AST :=
  match n with
  | O => OutOfFuel
  | S n' =>
      let ts := next ts in (* if *)
      if negb (match_token LPAREN ts) then Exit 116%Z
      else
        let* condition ts := binary_or n' (next ts) in
        if negb (match_token RPAREN ts) then Exit 118%Z
        else
          let* thenStatement ts := statement n' (next ts) in
          if match_token KW_ELSE ts then
            let* elseStatement ts := statement n' (next ts) in
            Ok (IfAST condition thenStatement (Some elseStatement)) ts
          else Ok (IfAST condition thenStatement None) ts
  end

with while_loop (n : nat) (ts : list token) {struct n} : Res AST :=
  match n with
  | O => OutOfFuel
  | S n' =>
      let ts := next ts in (* while *)
      if negb (match_token LPAREN ts) then Exit 116%Z
      else
        let* condition ts := binary_or n' (next ts) in
        if negb (match_token RPAREN ts) then Exit 118%Z
        else
          let* stmt ts := statement n' (next ts) in
          Ok (WhileAST condition stmt) ts
  end

with block (n : nat) (ts : list token) {struct n} : Res AST :=
  match n with
  | O => OutOfFuel
  | S n' =>
      let ts := next ts in (* { *)
      if match_token RBRACE ts then Ok (BlockAST []) (next ts)
      else
        let* stmts ts := block_loop n' (var_decl n') (statement n') [] ts in
        Ok (BlockAST stmts) (next ts)
  end.

(** ** Function definitions and the program driver *)

(** One parameter: the body of the parameter loop of [Parser::program] and of
    [Parser::function_def], which are the same code with the same exit
    codes. *)
Definition param (n : nat) (ts : list token) : Res AST :=
  if negb (match_token KW_INT ts) then Exit 996%Z
  else
    let ts := next ts in (* type *)
    if negb (match_token ID ts) then Exit 998%Z
    else
      let arg_name := id_name (cur ts) in
      let ts := next ts in (* id *)
      if match_token LBRACKET ts then
        let ts := next ts in (* [ *)
        if negb (match_token RBRACKET ts) then Exit 997%Z
        else
          let* dim ts := bracket_dims n (binary_add n) 994%Z [NumAST 0] (next ts) in
          Ok (IdAST arg_name array_t false dim) ts
      else Ok (IdAST arg_name var_t false []) ts.

(** The parameter list, entered just after [(]; it stops on the [)], which
    the caller consumes. *)
Definition param_list (n : nat) (ts : list token) : Res (list AST) :=
  if negb (match_token RPAREN ts) then
    let* args ts := comma_list n (param n) ts in
    if negb (match_token RPAREN ts) then Exit 993%Z else Ok args ts
  else Ok [] ts.

(** [Parser::function_def].  [Type type;] is left uninitialised in the source
    when the leading token is none of [int], [char], [void]; the driver only
    calls it on [void], and that case is given [void_t] here. *)
Definition function_def (n : nat) (ts : list token) : Res AST :=
  let type := if match_token KW_INT ts then int_t
              else if match_token KW_CHAR ts then char_t
              else void_t in
  let ts := next ts in (* type *)
  if negb (match_token ID ts) then Exit 999%Z
  else
    let name := id_name (cur ts) in
    let ts := next ts in (* id *)
    if negb (match_token LPAREN ts) then Exit 998%Z
    else
      let* args ts := param_list n (next ts) in
      let* body ts := block n (next ts) in
      Ok (FuncDefAST type name args body) ts.

(** The loop of [Parser::program]; [fuel] bounds its iterations and [n] is
    the fuel handed to the grammar rules. *)
Fixpoint program_loop (fuel n : nat) (nodes : list AST) (ts : list token)
    : Res AST :=
  if is_done ts then Ok (CompUnitAST nodes) ts
  else
    match fuel with
    | O => OutOfFuel
    | S f =>
        if match_token KW_CONST ts then
          let* variable_decl ts := var_decl n ts in
          program_loop f n (nodes ++ [variable_decl]) ts
        else if match_token KW_VOID ts then
          let* func ts := function_def n ts in
          program_loop f n (nodes ++ [func]) ts
        else if match_token KW_INT ts then
          let ts := next ts in (* int *)
          if negb (match_token ID ts) then Exit 3%Z
          else
            let name := id_name (cur ts) in
            let ts := next ts in (* id *)
            if match_token LPAREN ts then
              let* args ts := param_list n (next ts) in
              let* body ts := block n (next ts) in
              program_loop f n (nodes ++ [FuncDefAST int_t name args body]) ts
            else
              let* dims ts := bracket_dims n (binary_add n) 454%Z [] ts in
              let var := match dims with
                         | [] => IdAST name var_t false []
                         | _ => IdAST name array_t false dims
                         end in
              let* varDef ts :=
                (if match_token ASSIGN ts then
                   let* init ts := init_val n (next ts) in
                   Ok (VarDefAST false var (Some init)) ts
                 else Ok (VarDefAST false var None) ts) in
              let* varDefs ts := comma_more n (var_def n false) [varDef] ts in
              if negb (match_token SEMICON ts) then Exit 134%Z
              else program_loop f n (nodes ++ [VarDeclAST false varDefs]) (next ts)
        else Exit 233%Z
    end.

(** [Parser::parsing], with the same fuel for the loop and the rules. *)
Definition parsing (fuel : nat) (ts : list token) : Res AST :=
  program_loop fuel fuel [] ts.

(** ** The precedence tiers *)

Inductive tier := T_mul | T_add | T_rel | T_eq | T_and | T_or.

Definition tier_parser (t : tier) : nat -> parser AST :=
  match t with
  | T_mul => binary_mul | T_add => binary_add | T_rel => binary_relation
  | T_eq => binary_eq | T_and => binary_and | T_or => binary_or
  end.

(** The next lower tier, whose results are the operands of tier [t]. *)
Definition tier_sub (t : tier) : nat -> parser AST :=
  match t with
  | T_mul => unary | T_add => binary_mul | T_rel => binary_add
  | T_eq => binary_relation | T_and => binary_eq | T_or => binary_and
  end.

Definition tier_ops (t : tier) : list Operator :=
  match t with
  | T_mul => [mul_op; div_op; mod_op]
  | T_add => [add_op; sub_op]
  | T_rel => [gt_op; ge_op; le_op; le_op]
  | T_eq => [equ_op; nequ_op]
  | T_and => [and_op]
  | T_or => [or_op]
  end.

(** The tree built by folding operands into the accumulated left operand. *)
Definition fold_binary (lhs : AST) (l : list (Operator * AST)) : AST :=
  fold_left (fun acc oe => BinaryAST (fst oe) acc (snd oe)) l lhs.

(** The rest of a chain [op1 e1 op2 e2 ...] parsed by the loop of [binary]:
    each operator is in the tier's set and each operand is a result of [p];
    the chain ends at a token that is not an operator of the tier. *)
Inductive tail_chain (p : parser AST) (ops : list Operator)
    : list token -> list (Operator * AST) -> list token -> Prop :=
| tc_nil ts : tier_op ops ts = None -> tail_chain p ops ts [] ts
| tc_cons ts o e ts' l rest :
    tier_op ops ts = Some o -> p (next ts) = Ok e ts' ->
    tail_chain p ops ts' l rest -> tail_chain p ops ts ((o, e) :: l) rest.

(** A sequence of bracketed expressions [[e1][e2]...] parsed by [p], ending
    at a token other than [[]. *)
Inductive dim_chain (p : parser AST) : list token -> list AST -> list token -> Prop :=
| dc_nil ts : match_token LBRACKET ts = false -> dim_chain p ts [] ts
| dc_cons ts d r ds rest :
    match_token LBRACKET ts = true -> p (next ts) = Ok d r ->
    match_token RBRACKET r = true -> dim_chain p (next r) ds rest ->
    dim_chain p ts (d :: ds) rest.

(** The leading tokens from which [unary] can start. *)
Definition expr_lead (g : Tag) : bool :=
  match g with
  | LPAREN | NUM | ADD | SUB | NOT | ID => true
  | _ => false
  end.

(** The nodes built by the expression tiers. *)
Definition is_expr (e : AST) : bool :=
  match e with
  | BinaryAST _ _ _ | UnaryAST _ _ | NumAST _ | FuncCallAST _ _ | LValAST _ _ _ => true
  | _ => false
  end.

(** The tags of the operators of the relational, equality and logical
    tiers. *)
Definition cond_op_tag (g : Tag) : bool :=
  match g with
  | LT | LE | GT | GE | EQ | NE | AND | OR => true
  | _ => false
  end.

(** The leading tokens dispatched on by [Parser::statement] before its
    expression branch. *)
Definition stmt_keyword (g : Tag) : bool :=
  match g with
  | SEMICON | LBRACE | KW_WHILE | KW_IF | KW_BREAK | KW_CONTINUE | KW_RETURN => true
  | _ => false
  end.

(** A statement that ends in an [if] still open for an [else]: an else-less
    [if], or a construct whose last sub-statement is one. *)
Fixpoint open_tail (s : AST) : bool :=
  match s with
  | StmtAST x => open_tail x
  | IfAST _ _ None => true
  | IfAST _ _ (Some e) => open_tail e
  | WhileAST _ b => open_tail b
  | _ => false
  end.



(** The shape of an initializer built by [Parser::init_val]: a scalar holds
    exactly one expression, an aggregate a list of initializers. *)
Fixpoint wf_init (v : AST) : bool :=
  match v with
  | InitValAST var_t [e] => is_expr e
  | InitValAST array_t vs => forallb wf_init vs
  | _ => false
  end.

(** The shape of a variable definition built with const flag [c]: the [Id]
    carries the same flag, is scalar exactly when it has no dimension, and the
    initializer, present whenever [c] holds, is well formed. *)
Definition wf_var_def (c : bool) (d : AST) : Prop :=
  exists name k dims init,
    d = VarDefAST c (IdAST name k c dims) init /\
    (k = var_t <-> dims = []) /\
    (c = true -> init <> None) /\
    (forall v, init = Some v -> wf_init v = true).

(** The shape of a parameter: a scalar, or an array whose first dimension is
    the marker [Num(0)]. *)
Definition param_shape (p : AST) : Prop :=
  exists x, p = IdAST x var_t false [] \/
            exists ds, p = IdAST x array_t false (NumAST 0 :: ds).

(** The nodes the program driver puts in a [CompUnit]. *)
Definition top_level (u : AST) : bool :=
  match u with VarDeclAST _ _ | FuncDefAST _ _ _ _ => true | _ => false end.

(** The nodes a [Block] holds. *)
Definition block_item (u : AST) : bool :=
  match u with VarDeclAST _ _ | StmtAST _ => true | _ => false end.

(** The shape of a top-level unit: a declaration holding at least one
    well-formed variable definition, or a function definition that returns
    [int] or [void], whose parameters have the shape above and whose body is a
    block of declarations and statements. *)
Definition unit_wf (u : AST) : Prop :=
  (exists c defs, u = VarDeclAST c defs /\ defs <> [] /\ Forall (wf_var_def c) defs) \/
  (exists t name ps body, u = FuncDefAST t name ps (BlockAST body) /\ t <> char_t /\
                          Forall param_shape ps /\ forallb block_item body = true).

(** The shape of a statement: a [Stmt] node around an empty statement, a
    block of declarations and statements, a [while] or an [if] whose
    condition is an expression and whose branches are statements, a
    [break], [continue] or [return] without operand, a [return] of an
    expression, an assignment of an expression to a left-value, or an
    expression. *)
Fixpoint stmt_ok (s : AST) : bool :=
  match s with
  | StmtAST EmptyAST => true
  | StmtAST (BlockAST l) =>
      forallb (fun u => match u with VarDeclAST _ _ => true | _ => stmt_ok u end) l
  | StmtAST (WhileAST c b) => is_expr c && stmt_ok b
  | StmtAST (IfAST c t e) =>
      is_expr c && stmt_ok t && match e with Some e => stmt_ok e | None => true end
  | StmtAST (ControlAST _ None) => true
  | StmtAST (ControlAST return_c (Some e)) => is_expr e
  | StmtAST (AssignAST l r) => is_lval l && is_expr r
  | StmtAST e => is_expr e
  | _ => false
  end.

(** ** The diagnostic rendering ([to_string] of ast.h) *)

Section Render.
(** [type_to_string], [vartype_to_string] and [op_to_string] are in
    type.h, and [std::to_string] in the C++ library; they are left as
    parameters. *)
Variable type_to_string : Ty -> string.
Variable vartype_to_string : VarType -> string.
Variable op_to_string : Operator -> string.
Variable int_to_string : Z -> string.

Definition nl : string := String (Ascii.ascii_of_nat 10) EmptyString.

Fixpoint to_string (a : AST) : string :=
  match a with
  | CompUnitAST units =>
      "CompUnit: [" ++ fold_left (fun out u => out ++ nl ++ to_string u) units ""
      ++ "]" ++ nl
  | StmtAST s => "Statement: {" ++ to_string s ++ "}" ++ nl
  | FuncDefAST t name params body =>
      fold_left (fun out p => out ++ to_string p) params
        ("FunctionDef(" ++ type_to_string t ++ "): " ++ name ++ " ")
      ++ to_string body
  | FuncCallAST _ _ => "FuncCallAST"
  | VarDeclAST c vars =>
      let output := fold_left (fun out u => out ++ nl ++ to_string u) vars "" in
      if c then "VarDeclAST (CONST): {" ++ output ++ "}"
      else "VarDeclAST: {" ++ output ++ "}"
  | VarDefAST c var _ =>
      if c then "VarDefAST (CONST): {" ++ to_string var ++ "}"
      else "VarDefAST: { " ++ to_string var ++ " }"
  | IdAST name t c _ =>
      if c then "IdAST (CONST) (" ++ vartype_to_string t ++ "): " ++ name
      else "IdAST(" ++ vartype_to_string t ++ "): " ++ name
  | InitValAST t _ => "InitValAST(" ++ vartype_to_string t ++ ")"
  | BlockAST stmts =>
      "BlockAST: {" ++ fold_left (fun out u => out ++ nl ++ to_string u) stmts ""
      ++ "}"
  | BinaryAST o l r =>
      "(" ++ to_string l ++ " " ++ op_to_string o ++ " " ++ to_string r ++ ")"
  | UnaryAST o e => "(" ++ op_to_string o ++ " " ++ to_string e ++ ")"
  | NumAST v => int_to_string v
  | IfAST c t (Some e) =>
      "IfAST: { if (" ++ to_string c ++ " ) then ( " ++ to_string t
      ++ ") else (" ++ to_string e ++ " ) }"
  | IfAST c t None =>
      "IfAST: { if (" ++ to_string c ++ " ) then ( " ++ to_string t ++ " ) }"
  | WhileAST c b =>
      "WhileAST: { while (" ++ to_string c ++ " ) do ( " ++ to_string b ++ " ) }"
  | ControlAST break_c _ => "ControlAST: BREAK"
  | ControlAST continue_c _ => "ControlAST: CONTINUE"
  | ControlAST return_c (Some r) => "ControlAST: RETURN (" ++ to_string r ++ ")"
  | ControlAST return_c None => "ControlAST: RETURN "
  | AssignAST l r => " AssignAST: { " ++ to_string l ++ " = " ++ to_string r ++ " }"
  | LValAST name t _ => "LValAST:(" ++ vartype_to_string t ++ "):  { " ++ name ++ " }"
  | EmptyAST => "EmptyAST"
  end%string.
End Render.

(** What [to_string] keeps of a tree: the name and arguments of a call, the
    initializer of a variable definition, the dimensions of an [Id], the
    values of an initializer, the indices of a left-value and the operand of
    a [break] or [continue] are wiped. *)
Fixpoint erase (a : AST) : AST :=
  match a with
  | CompUnitAST us => CompUnitAST (map erase us)
  | StmtAST s => StmtAST (erase s)
  | FuncDefAST t name ps b => FuncDefAST t name (map erase ps) (erase b)
  | FuncCallAST _ _ => FuncCallAST EmptyString []
  | VarDeclAST c vs => VarDeclAST c (map erase vs)
  | VarDefAST c v _ => VarDefAST c (erase v) None
  | IdAST name t c _ => IdAST name t c []
  | InitValAST t _ => InitValAST t []
  | BlockAST ss => BlockAST (map erase ss)
  | BinaryAST o l r => BinaryAST o (erase l) (erase r)
  | UnaryAST o e => UnaryAST o (erase e)
  | NumAST v => NumAST v
  | IfAST c t e => IfAST (erase c) (erase t) (option_map erase e)
  | WhileAST c b => WhileAST (erase c) (erase b)
  | ControlAST return_c r => ControlAST return_c (option_map erase r)
  | ControlAST k _ => ControlAST k None
  | AssignAST l r => AssignAST (erase l) (erase r)
  | LValAST name t _ => LValAST name t []
  | EmptyAST => EmptyAST
  end.

(** Token helpers for the examples. *)
Definition tw := Word.
Definition tid (s : string) := Id_tok s.
Definition tnum (z : Z) := Num_tok z.

Example ex_arith :
  binary_add 10 [tnum 1; tw ADD; tnum 2; tw MUL; tnum 3] =
  Ok (BinaryAST add_op (NumAST 1) (BinaryAST mul_op (NumAST 2) (NumAST 3))) [].
Proof. reflexivity. Qed.

Example ex_prog :
  parsing 20 [tw KW_INT; tid "a"; tw LBRACKET; tnum 2; tw RBRACKET; tw ASSIGN; tw LBRACE;
              tnum 1; tw COMMA; tnum 2; tw RBRACE; tw SEMICON] =
  Ok (CompUnitAST [VarDeclAST false
        [VarDefAST false (IdAST "a" array_t false [NumAST 2])
           (Some (InitValAST array_t [InitValAST var_t [NumAST 1];
                                      InitValAST var_t [NumAST 2]]))]]) [].
Proof. reflexivity. Qed.

(** ** The generic binary loop *)

Section BinaryLoop.
Variable p : parser AST.
Variable ops : list Operator.

Lemma binary_loop_chain : forall ts l rest,
  tail_chain p ops ts l rest ->
  forall fuel lhs, length l <= fuel ->
  binary_loop fuel p ops lhs ts = Ok (fold_binary lhs l) rest.
Proof.
  induction 1 as [ts Hop | ts o e ts' l rest Hop Hp Hc IH];
    intros fuel lhs Hlen.
  - destruct fuel; simpl; rewrite Hop; reflexivity.
  - destruct fuel as [|f]; simpl in Hlen; [lia|]. simpl.
    rewrite Hop, Hp. simpl. apply IH. lia.
Qed.

Lemma binary_loop_inv : forall fuel lhs ts e rest,
  binary_loop fuel p ops lhs ts = Ok e rest ->
  exists l, tail_chain p ops ts l rest /\ e = fold_binary lhs l.
Proof.
  induction fuel as [|f IH]; intros lhs ts e rest H; simpl in H;
    destruct (tier_op ops ts) as [o|] eqn:Hop.
  - discriminate.
  - injection H as <- <-. exists []. split; [constructor; exact Hop | reflexivity].
  - destruct (p (next ts)) as [rhs ts'| |] eqn:Hp; simpl in H; try discriminate.
    destruct (IH _ _ _ _ H) as [l [Hc ->]].
    exists ((o, rhs) :: l). split; [econstructor; eauto | reflexivity].
  - injection H as <- <-. exists []. split; [constructor; exact Hop | reflexivity].
Qed.

Lemma binary_inv : forall fuel ts e rest,
  binary fuel p ops ts = Ok e rest ->
  exists e0 ts1 l, p ts = Ok e0 ts1 /\ tail_chain p ops ts1 l rest /\
                   e = fold_binary e0 l.
Proof.
  unfold binary. intros fuel ts e rest H.
  destruct (p ts) as [e0 ts1| |]; simpl in H; try discriminate.
  destruct (binary_loop_inv _ _ _ _ _ H) as [l [Hc ->]].
  exists e0, ts1, l. auto.
Qed.
End BinaryLoop.

Lemma tier_parser_S : forall t n ts,
  tier_parser t (S n) ts = binary n (tier_sub t n) (tier_ops t) ts.
Proof. destruct t; reflexivity. Qed.

(** ** C3: every tier folds left *)

(** Claim C3: in every binary precedence tier, a sequence of operands
    separated by operators of that tier, each operand parsed by the next lower
    tier, is folded left-associatively into the accumulated left operand:
    [e0 o1 e1 o2 e2 ...] gives [((e0 o1 e1) o2 e2) ...]. *)
Theorem binary_tier_left_assoc : forall t n ts e0 ts1 l rest,
  tier_sub t n ts = Ok e0 ts1 ->
  tail_chain (tier_sub t n) (tier_ops t) ts1 l rest ->
  length l <= n ->
  tier_parser t (S n) ts = Ok (fold_binary e0 l) rest.
Proof.
  intros t n ts e0 ts1 l rest H0 Hc Hlen.
  rewrite tier_parser_S. unfold binary. rewrite H0. simpl.
  apply binary_loop_chain; assumption.
Qed.

Lemma binary_tier_left_assoc_witness :
  binary_add 11 [tnum 1; tw SUB; tnum 2; tw SUB; tnum 3] =
  Ok (BinaryAST sub_op (BinaryAST sub_op (NumAST 1) (NumAST 2)) (NumAST 3)) [].
Proof.
  apply (binary_tier_left_assoc T_add 10 _ (NumAST 1) [tw SUB; tnum 2; tw SUB; tnum 3]
           [(sub_op, NumAST 2); (sub_op, NumAST 3)] []).
  - reflexivity.
  - econstructor; [reflexivity | reflexivity |].
    econstructor; [reflexivity | reflexivity |].
    constructor. reflexivity.
  - simpl. lia.
Defined.

(** ** C2: the additive tier takes its operands from the multiplicative tier *)

(** Claim C2: every result of the additive tier is the left fold, over
    additive operators, of operands each parsed by the multiplicative tier; so
    a multiplicative operator between two operands binds them before any
    additive operator does, and [1+2*3] parses to
    [Binary(add, 1, Binary(mul, 2, 3))]. *)
Theorem additive_operands_multiplicative : forall n ts e rest,
  binary_add (S n) ts = Ok e rest ->
  exists e0 ts1 l,
    binary_mul n ts = Ok e0 ts1 /\
    tail_chain (binary_mul n) [add_op; sub_op] ts1 l rest /\
    e = fold_binary e0 l.
Proof.
  intros n ts e rest H. simpl in H.
  exact (binary_inv _ _ _ _ _ _ H).
Qed.

Lemma additive_operands_multiplicative_witness :
  binary_add 11 [tnum 1; tw ADD; tnum 2; tw MUL; tnum 3] =
    Ok (BinaryAST add_op (NumAST 1) (BinaryAST mul_op (NumAST 2) (NumAST 3))) [] /\
  binary_add 11 [tnum 1; tw ADD; tnum 2; tw MUL; tnum 3] <>
    Ok (BinaryAST mul_op (BinaryAST add_op (NumAST 1) (NumAST 2)) (NumAST 3)) [] /\
  exists e0 ts1 l,
    binary_mul 10 [tnum 1; tw ADD; tnum 2; tw MUL; tnum 3] = Ok e0 ts1 /\
    tail_chain (binary_mul 10) [add_op; sub_op] ts1 l [] /\
    BinaryAST add_op (NumAST 1) (BinaryAST mul_op (NumAST 2) (NumAST 3)) = fold_binary e0 l.
Proof.
  split; [reflexivity|]. split; [vm_compute; discriminate|].
  apply (additive_operands_multiplicative 10). reflexivity.
Defined.

(** ** Unfolding equations and case analysis on results *)

Lemma binary_mul_S : forall n ts,
  binary_mul (S n) ts = binary n (unary n) [mul_op; div_op; mod_op] ts.
Proof. reflexivity. Qed.

Lemma binary_add_S : forall n ts,
  binary_add (S n) ts = binary n (binary_mul n) [add_op; sub_op] ts.
Proof. reflexivity. Qed.

Lemma binary_relation_S : forall n ts,
  binary_relation (S n) ts = binary n (binary_add n) [gt_op; ge_op; le_op; le_op] ts.
Proof. reflexivity. Qed.

(** Split a hypothesis [rule ts = Ok e r] along the tests and sub-results of
    the rule. *)
Ltac res_cases H :=
  repeat (simpl in H;
          lazymatch type of H with
          | (if ?b then _ else _) = _ => destruct b eqn:?
          | bind ?x _ = _ => destruct x eqn:?
          end);
  try discriminate H.

Lemma binary_first : forall fuel p ops ts e r,
  binary fuel p ops ts = Ok e r -> exists e0 r0, p ts = Ok e0 r0.
Proof.
  intros fuel p ops ts e r H.
  destruct (binary_inv _ _ _ _ _ _ H) as (e0 & r0 & l & H0 & _). eauto.
Qed.

Lemma unary_lead : forall n ts e r,
  unary n ts = Ok e r -> expr_lead (tag_of (cur ts)) = true.
Proof.
  intros [|n] ts e r H; simpl in H; [discriminate|].
  unfold match_token in H.
  destruct (tag_of (cur ts)); simpl in H; try reflexivity; discriminate.
Qed.

Lemma binary_add_lead : forall n ts e r,
  binary_add n ts = Ok e r -> expr_lead (tag_of (cur ts)) = true.
Proof.
  intros [|n] ts e r H; [discriminate|].
  rewrite binary_add_S in H. apply binary_first in H as (e0 & r0 & H).
  destruct n as [|n]; [discriminate|].
  rewrite binary_mul_S in H. apply binary_first in H as (e1 & r1 & H).
  eapply unary_lead; eauto.
Qed.

Lemma binary_result : forall fuel p ops ts e r,
  (forall ts e r, p ts = Ok e r -> is_expr e = true) ->
  binary fuel p ops ts = Ok e r -> is_expr e = true.
Proof.
  intros fuel p ops ts e r Hp H.
  destruct (binary_inv _ _ _ _ _ _ H) as (e0 & r0 & l & H0 & _ & ->).
  destruct l as [|[o x] l] using rev_ind; [simpl; eauto|].
  unfold fold_binary. rewrite fold_left_app. reflexivity.
Qed.

Lemma expr_results : forall n,
  (forall ts e r, unary n ts = Ok e r -> is_expr e = true) /\
  (forall ts e r, binary_mul n ts = Ok e r -> is_expr e = true) /\
  (forall ts e r, binary_add n ts = Ok e r -> is_expr e = true).
Proof.
  induction n as [|n IH]; [repeat split; discriminate|].
  destruct IH as (IHu & IHm & IHa).
  split; [|split].
  - intros ts e r H. res_cases H; injection H as <- <-; eauto.
  - intros ts e r H. eapply binary_result; [exact IHu | exact H].
  - intros ts e r H. eapply binary_result; [exact IHm | exact H].
Qed.

Lemma binary_add_expr : forall n ts e r,
  binary_add n ts = Ok e r -> is_expr e = true.
Proof. intros n. apply (expr_results n). Qed.

(** ** An open [if] is never followed by an [else] *)

Lemma expr_not_open : forall e, is_expr e = true -> open_tail e = false.
Proof. intros [] H; try discriminate; reflexivity. Qed.

Lemma block_result : forall n ts s r,
  block n ts = Ok s r -> exists l, s = BlockAST l.
Proof.
  intros [|n] ts s r H; [discriminate|].
  res_cases H; injection H as <- <-; eauto.
Qed.

Lemma open_tail_no_else : forall n,
  (forall ts s r, statement n ts = Ok s r -> open_tail s = true ->
                  match_token KW_ELSE r = false) /\
  (forall ts s r, if_else n ts = Ok s r -> open_tail s = true ->
                  match_token KW_ELSE r = false) /\
  (forall ts s r, while_loop n ts = Ok s r -> open_tail s = true ->
                  match_token KW_ELSE r = false).
Proof.
  induction n as [|n IH]; [repeat split; discriminate|].
  destruct IH as (IHs & IHi & IHw).
  split; [|split]; intros ts s r H Ho.
  - res_cases H; injection H as <- <-; simpl in Ho;
      try discriminate Ho; try solve [eauto];
      match goal with
      | Hb : block _ _ = Ok ?e _ |- _ =>
          destruct (block_result _ _ _ _ Hb) as [? ->]; discriminate Ho
      | Hb : binary_add _ _ = Ok ?e _ |- _ =>
          rewrite (expr_not_open e (binary_add_expr _ _ _ _ Hb)) in Ho; discriminate Ho
      end.
  - res_cases H; injection H as <- <-; simpl in Ho; eauto.
  - res_cases H; injection H as <- <-; simpl in Ho; eauto.
Qed.

(** Claim C6: an [else] binds to the innermost [if] still open for it: no
    [if] parsed with an [else] branch has a then-statement that ends in an
    else-less [if], so in [if(a) if(b) s1; else s2;] the [else] goes to
    [if(b)]. *)
Theorem dangling_else_innermost : forall n ts c t e rest,
  if_else n ts = Ok (IfAST c t (Some e)) rest -> open_tail t = false.
Proof.
  intros [|n] ts c t e rest H; [discriminate|].
  res_cases H.
  injection H; intros; subst.
  destruct (open_tail_no_else n) as (Hs & _).
  match goal with
  | Ht : statement n _ = Ok ?t ?r, He : match_token KW_ELSE ?r = true
    |- open_tail ?t = false =>
      destruct (open_tail t) eqn:Ho; [|reflexivity];
      rewrite (Hs _ _ _ Ht Ho) in He; discriminate He
  end.
Qed.

Lemma dangling_else_innermost_witness :
  statement 20 [tw KW_IF; tw LPAREN; tid "a"; tw RPAREN;
                tw KW_IF; tw LPAREN; tid "b"; tw RPAREN; tid "s1"; tw SEMICON;
                tw KW_ELSE; tid "s2"; tw SEMICON] =
    Ok (StmtAST (IfAST (LValAST "a" var_t [])
          (StmtAST (IfAST (LValAST "b" var_t [])
                      (StmtAST (LValAST "s1" var_t []))
                      (Some (StmtAST (LValAST "s2" var_t [])))))
          None)) [] /\
  open_tail (StmtAST (LValAST "s1" var_t [])) = false.
Proof.
  split; [reflexivity|].
  apply (dangling_else_innermost 17
           [tw KW_IF; tw LPAREN; tid "b"; tw RPAREN; tid "s1"; tw SEMICON;
            tw KW_ELSE; tid "s2"; tw SEMICON]
           (LValAST "b" var_t []) _ (StmtAST (LValAST "s2" var_t [])) []).
  reflexivity.
Defined.

(** ** The expression branch of [Parser::statement] *)

Lemma statement_expr_branch : forall n ts,
  stmt_keyword (tag_of (cur ts)) = false ->
  statement (S n) ts =
    let* exp ts := binary_add n ts in
    if is_lval exp then
      if match_token ASSIGN ts then
        let* rhs ts := binary_add n (next ts) in
        if negb (match_token SEMICON ts) then Exit 113%Z
        else Ok (StmtAST (AssignAST exp rhs)) (next ts)
      else if match_token SEMICON ts then Ok (StmtAST exp) (next ts)
      else Exit 114%Z
    else
      if negb (match_token SEMICON ts) then Exit 115%Z
      else Ok (StmtAST exp) (next ts).
Proof.
  intros n ts Hk. simpl. unfold match_token at 1 2 3 4 5 6 7.
  destruct (tag_of (cur ts)); try discriminate Hk; reflexivity.
Qed.

Lemma expr_lead_not_keyword : forall g,
  expr_lead g = true -> stmt_keyword g = false.
Proof. intros [] H; try discriminate H; reflexivity. Qed.

Lemma binary_stop : forall fuel p ops ts e r,
  p ts = Ok e r -> tier_op ops r = None -> binary fuel p ops ts = Ok e r.
Proof.
  intros fuel p ops ts e r Hp Hn. unfold binary. rewrite Hp. simpl.
  destruct fuel; simpl; rewrite Hn; reflexivity.
Qed.

(** A statement whose expression stops at an operator of the relational,
    equality or logical tiers fails. *)
Lemma statement_stops_at_cond_op : forall n ts e r,
  binary_add n ts = Ok e r -> cond_op_tag (tag_of (cur r)) = true ->
  exists c, statement (S n) ts = Exit c.
Proof.
  intros n ts e r Hb Hc.
  rewrite statement_expr_branch
    by exact (expr_lead_not_keyword _ (binary_add_lead _ _ _ _ Hb)).
  rewrite Hb. simpl. unfold match_token.
  destruct (tag_of (cur r)); try discriminate Hc;
    destruct (is_lval e); simpl; eauto.
Qed.

(** ** C4: assignment or expression-statement *)

(** Claim C4: a statement that does not start with [;], [{], [while], [if],
    [break], [continue] or [return] is parsed as an expression first; when that
    expression is a left-value followed by [=], the statement is an [Assign]
    of it and of a second expression, which must be followed by [;];
    otherwise a [;] must follow and the statement wraps the expression
    itself. *)
Theorem statement_assign_or_expr : forall n ts e r,
  stmt_keyword (tag_of (cur ts)) = false ->
  binary_add n ts = Ok e r ->
  (is_lval e = true -> match_token ASSIGN r = true ->
   forall rhs r2, binary_add n (next r) = Ok rhs r2 ->
   statement (S n) ts =
     if match_token SEMICON r2 then Ok (StmtAST (AssignAST e rhs)) (next r2)
     else Exit 113%Z) /\
  (is_lval e && match_token ASSIGN r = false ->
   statement (S n) ts =
     if match_token SEMICON r then Ok (StmtAST e) (next r)
     else Exit (if is_lval e then 114%Z else 115%Z)).
Proof.
  intros n ts e r Hk Hb.
  rewrite (statement_expr_branch n ts Hk), Hb. simpl.
  split.
  - intros Hl Ha rhs r2 Hr. rewrite Hl, Ha, Hr. simpl.
    destruct (match_token SEMICON r2); reflexivity.
  - intros Hn. destruct (is_lval e); simpl in Hn.
    + rewrite Hn. destruct (match_token SEMICON r); reflexivity.
    + destruct (match_token SEMICON r); reflexivity.
Qed.

Lemma statement_assign_or_expr_witness :
  statement 10 [tid "a"; tw ASSIGN; tnum 1; tw SEMICON] =
    Ok (StmtAST (AssignAST (LValAST "a" var_t []) (NumAST 1))) [] /\
  statement 10 [tid "a"; tw SEMICON] = Ok (StmtAST (LValAST "a" var_t [])) [].
Proof.
  split.
  - rewrite (proj1 (statement_assign_or_expr 9 [tid "a"; tw ASSIGN; tnum 1; tw SEMICON]
             (LValAST "a" var_t []) [tw ASSIGN; tnum 1; tw SEMICON] eq_refl eq_refl)
             eq_refl eq_refl (NumAST 1) [tw SEMICON] eq_refl).
    reflexivity.
  - rewrite (proj2 (statement_assign_or_expr 9 [tid "a"; tw SEMICON]
             (LValAST "a" var_t []) [tw SEMICON] eq_refl eq_refl) eq_refl).
    reflexivity.
Defined.

(** ** C1: the relational tier's operator set *)

Lemma tier_op_LT : forall t ts,
  tag_of (cur ts) = LT -> tier_op (tier_ops t) ts = None.
Proof. intros [] ts H; unfold tier_op; rewrite H; reflexivity. Qed.

Lemma binary_or_stops_at_LT : forall n ts e r,
  binary_add n ts = Ok e r -> tag_of (cur r) = LT ->
  binary_or (S (S (S (S n)))) ts = Ok e r.
Proof.
  intros n ts e r Hb Ht.
  assert (Hr : binary_relation (S n) ts = Ok e r)
    by (rewrite binary_relation_S; apply binary_stop;
        [exact Hb | exact (tier_op_LT T_rel r Ht)]).
  assert (He : binary_eq (S (S n)) ts = Ok e r)
    by (apply binary_stop; [exact Hr | exact (tier_op_LT T_eq r Ht)]).
  assert (Ha : binary_and (S (S (S n))) ts = Ok e r)
    by (apply binary_stop; [exact He | exact (tier_op_LT T_and r Ht)]).
  apply binary_stop; [exact Ha | exact (tier_op_LT T_or r Ht)].
Qed.

(** Claim C1: the relational tier's operator set is, as wired,
    [{>, >=, <=, <=}]: a lookahead [>], [>=] or [<=] after an additive operand
    is consumed as a relational operator, a lookahead [<] is left unconsumed,
    and an [if] or [while] condition, or an expression statement, whose
    additive operand is followed by [<] fails. *)
Theorem relational_tier_as_wired : forall n ts e r,
  binary_add n ts = Ok e r ->
  tier_ops T_rel = [gt_op; ge_op; le_op; le_op] /\
  (tier_op (tier_ops T_rel) r <> None <-> In (tag_of (cur r)) [GT; GE; LE]) /\
  (forall o e2 r2,
     tier_op (tier_ops T_rel) r = Some o ->
     binary_add n (next r) = Ok e2 r2 ->
     tier_op (tier_ops T_rel) r2 = None ->
     binary_relation (S n) ts = Ok (BinaryAST o e e2) r2) /\
  (tag_of (cur r) = LT ->
     binary_relation (S n) ts = Ok e r /\
     if_else (S (S (S (S (S n))))) (tw KW_IF :: tw LPAREN :: ts) = Exit 118%Z /\
     while_loop (S (S (S (S (S n))))) (tw KW_WHILE :: tw LPAREN :: ts) = Exit 118%Z /\
     exists c, statement (S n) ts = Exit c).
Proof.
  intros n ts e r Hb.
  split; [reflexivity|]. split; [|split].
  - unfold tier_op. simpl.
    destruct (tag_of (cur r)); simpl; split; intros H;
      try (exfalso; apply H; reflexivity); try discriminate;
      intuition discriminate.
  - intros o e2 r2 Ho He2 Hn.
    destruct n as [|n]; [discriminate Hb|].
    change (tier_ops T_rel) with [gt_op; ge_op; le_op; le_op] in Ho, Hn.
    rewrite binary_relation_S. unfold binary. rewrite Hb. cbn [bind binary_loop].
    rewrite Ho. cbn [bind]. rewrite He2. cbn [bind].
    destruct n; cbn [binary_loop]; rewrite Hn; reflexivity.
  - intros Ht. split; [|split; [|split]].
    + rewrite binary_relation_S. apply binary_stop;
        [exact Hb | exact (tier_op_LT T_rel r Ht)].
    + cbn [if_else next tl match_token cur tw tag_of Tag_beq negb].
      rewrite (binary_or_stops_at_LT n ts e r Hb Ht). simpl.
      unfold match_token. rewrite Ht. reflexivity.
    + cbn [while_loop next tl match_token cur tw tag_of Tag_beq negb].
      rewrite (binary_or_stops_at_LT n ts e r Hb Ht). simpl.
      unfold match_token. rewrite Ht. reflexivity.
    + apply (statement_stops_at_cond_op n ts e r Hb). rewrite Ht. reflexivity.
Qed.

Lemma relational_tier_as_wired_witness :
  binary_add 10 [tid "a"; tw LT; tid "b"] =
    Ok (LValAST "a" var_t []) [tw LT; tid "b"] /\
  if_else 15 [tw KW_IF; tw LPAREN; tid "a"; tw LT; tid "b"; tw RPAREN; tw SEMICON]
    = Exit 118%Z.
Proof.
  split; [reflexivity|].
  apply (relational_tier_as_wired 10 [tid "a"; tw LT; tid "b"]
           (LValAST "a" var_t []) [tw LT; tid "b"] eq_refl).
  reflexivity.
Defined.

(** ** C5: [break] and [continue] followed by an expression *)

(** Claim C5 (code defect): the statement builder is meant to carry an
    expression only in a [return] node; but [break 1;] and [continue 1;] are
    taken by its [return exp;] branch and yield a [return] node carrying
    [Num(1)]. *)
Theorem break_continue_with_expression :
  statement 10 [tw KW_BREAK; tnum 1; tw SEMICON] =
    Ok (StmtAST (ControlAST return_c (Some (NumAST 1)))) [] /\
  statement 10 [tw KW_CONTINUE; tnum 1; tw SEMICON] =
    Ok (StmtAST (ControlAST return_c (Some (NumAST 1)))) [] /\
  statement 10 [tw KW_BREAK; tw SEMICON] = Ok (StmtAST (ControlAST break_c None)) [] /\
  statement 10 [tw KW_RETURN; tnum 1; tw SEMICON] =
    Ok (StmtAST (ControlAST return_c (Some (NumAST 1)))) [].
Proof. repeat split; reflexivity. Qed.

(** ** C7: array parameters *)

Lemma bracket_dims_chain : forall p ts ds rest,
  dim_chain p ts ds rest ->
  forall fuel code acc, length ds <= fuel ->
  bracket_dims fuel p code acc ts = Ok (acc ++ ds) rest.
Proof.
  induction 1 as [ts Hl | ts d r ds rest Hl Hp Hr Hc IH];
    intros fuel code acc Hlen.
  - destruct fuel; simpl; rewrite Hl; rewrite app_nil_r; reflexivity.
  - destruct fuel as [|f]; simpl in Hlen; [lia|]. simpl.
    rewrite Hl, Hp. simpl. rewrite Hr.
    rewrite IH by lia. rewrite <- app_assoc. reflexivity.
Qed.

(** Claim C7: a parameter [int x[]] followed by [k] bracketed dimension
    expressions is an array [Id] whose dimension list has [k+1] entries: the
    marker [Num(0)] for the empty pair, then the [k] expressions in source
    order. *)
Theorem array_param_dims : forall n x ts ds rest,
  dim_chain (binary_add n) ts ds rest ->
  length ds <= n ->
  param n (tw KW_INT :: tid x :: tw LBRACKET :: tw RBRACKET :: ts) =
    Ok (IdAST x array_t false (NumAST 0 :: ds)) rest.
Proof.
  intros n x ts ds rest Hc Hlen. unfold param. simpl.
  rewrite (bracket_dims_chain _ _ _ _ Hc n 994%Z [NumAST 0] Hlen).
  reflexivity.
Qed.

Lemma array_param_dims_witness :
  param 10 [tw KW_INT; tid "x"; tw LBRACKET; tw RBRACKET;
            tw LBRACKET; tnum 3; tw RBRACKET; tw LBRACKET; tid "n"; tw RBRACKET;
            tw RPAREN] =
    Ok (IdAST "x" array_t false [NumAST 0; NumAST 3; LValAST "n" var_t []]) [tw RPAREN] /\
  parsing 20 [tw KW_INT; tid "f"; tw LPAREN; tw KW_INT; tid "x"; tw LBRACKET;
              tw RBRACKET; tw LBRACKET; tnum 3; tw RBRACKET; tw RPAREN;
              tw LBRACE; tw RBRACE] =
    Ok (CompUnitAST [FuncDefAST int_t "f"
          [IdAST "x" array_t false [NumAST 0; NumAST 3]] (BlockAST [])]) [].
Proof.
  split; [|reflexivity].
  apply (array_param_dims 10 "x"
           [tw LBRACKET; tnum 3; tw RBRACKET; tw LBRACKET; tid "n"; tw RBRACKET;
            tw RPAREN]).
  - econstructor; [reflexivity | reflexivity | reflexivity |].
    econstructor; [reflexivity | reflexivity | reflexivity |].
    constructor. reflexivity.
  - simpl. lia.
Defined.

(** ** C8: exit statuses shared between failure sites *)

(** Claim C8 fails: a missing [(] after [if] and after [while] are two
    failure sites, and both exit with status 116. *)
Lemma exit_status_shared :
  statement 10 [tw KW_IF; tid "x"] = Exit 116%Z /\
  statement 10 [tw KW_WHILE; tid "x"] = Exit 116%Z.
Proof. split; reflexivity. Qed.

(** Claim C8, as amended: exit statuses are not distinct per failure site;
    the [if] and [while] builders exit with the same status for the same
    fault: 116 when the keyword is not followed by [(], and 118 when the
    condition is not followed by [)]. *)
Theorem if_while_share_exit_status : forall n t ts,
  (match_token LPAREN ts = false ->
   if_else (S n) (t :: ts) = Exit 116%Z /\
   while_loop (S n) (t :: ts) = Exit 116%Z) /\
  (forall c r, match_token LPAREN ts = true ->
   binary_or n (next ts) = Ok c r -> match_token RPAREN r = false ->
   if_else (S n) (t :: ts) = Exit 118%Z /\
   while_loop (S n) (t :: ts) = Exit 118%Z).
Proof.
  intros n t ts. split.
  - intros H. cbn [if_else while_loop next tl]. rewrite H. split; reflexivity.
  - intros c r Hl Hb Hr. cbn [if_else while_loop next tl].
    rewrite Hl. cbn [negb]. rewrite Hb. cbn [bind]. rewrite Hr.
    split; reflexivity.
Qed.

Lemma if_while_share_exit_status_witness :
  if_else 10 [tw KW_IF; tid "x"] = Exit 116%Z /\
  while_loop 10 [tw KW_WHILE; tw LPAREN; tid "x"; tw SEMICON] = Exit 118%Z.
Proof.
  split.
  - exact (proj1 (proj1 (if_while_share_exit_status 9 (tw KW_IF) [tid "x"])
                           eq_refl)).
  - exact (proj2 (proj2 (if_while_share_exit_status 9 (tw KW_WHILE)
                           [tw LPAREN; tid "x"; tw SEMICON])
                           (LValAST "x" var_t []) [tw SEMICON]
                           eq_refl eq_refl eq_refl)).
Defined.

(** ** C9: the block builder does not check its opening brace *)

(** Claim C9: [Parser::block] consumes its first token whatever it is; so a
    function whose parameter list is followed by [x }] instead of [{ }] is
    accepted with an empty body. *)
Theorem block_skips_first_token :
  (forall n t ts, block n (t :: ts) = block n (tw LBRACE :: ts)) /\
  function_def 10 [tw KW_VOID; tid "f"; tw LPAREN; tw RPAREN; tid "x"; tw RBRACE] =
    Ok (FuncDefAST void_t "f" [] (BlockAST [])) [] /\
  parsing 10 [tw KW_INT; tid "f"; tw LPAREN; tw RPAREN; tid "x"; tw RBRACE] =
    Ok (CompUnitAST [FuncDefAST int_t "f" [] (BlockAST [])]) [].
Proof.
  split; [|split; reflexivity].
  intros [|n] t ts; reflexivity.
Qed.

(** ** C10: [<] in conditions *)

(** Claim C10 (code defect, the same as the relational operator set of
    C1): an [if] condition [a < b] fails with status 118, while [a <= b] and
    [a == b] are accepted. *)
Theorem cond_less_than_rejected :
  if_else 15 [tw KW_IF; tw LPAREN; tid "a"; tw LT; tid "b"; tw RPAREN; tw SEMICON]
    = Exit 118%Z /\
  if_else 15 [tw KW_IF; tw LPAREN; tid "a"; tw LE; tid "b"; tw RPAREN; tw SEMICON]
    = Ok (IfAST (BinaryAST le_op (LValAST "a" var_t []) (LValAST "b" var_t []))
                (StmtAST EmptyAST) None) [] /\
  if_else 15 [tw KW_IF; tw LPAREN; tid "a"; tw EQ; tid "b"; tw RPAREN; tw SEMICON]
    = Ok (IfAST (BinaryAST equ_op (LValAST "a" var_t []) (LValAST "b" var_t []))
                (StmtAST EmptyAST) None) [] /\
  statement 10 [tid "a"; tw EQ; tid "b"; tw SEMICON] = Exit 114%Z /\
  statement 10 [tid "a"; tw ASSIGN; tid "b"; tw LT; tid "c"; tw SEMICON] = Exit 113%Z.
Proof. repeat split; reflexivity. Qed.

(** ** The rules only read tokens off the front of their input *)
























Lemma var_decl_shape : forall n ts d r,
  var_decl n ts = Ok d r -> exists c l, d = VarDeclAST c l.
Proof.
  intros [|n] ts d r H; [discriminate|].
  res_cases H; injection H as <- _; eauto.
Qed.

Lemma function_def_shape : forall n ts d r,
  function_def n ts = Ok d r -> exists t name ps b, d = FuncDefAST t name ps b.
Proof.
  intros n ts d r H. unfold function_def in H.
  res_cases H; injection H as <- _; eauto.
Qed.

(** ** Extras: properties of the rules beyond the claims *)




Lemma program_loop_result : forall fuel n nodes ts u r,
  program_loop fuel n nodes ts = Ok u r ->
  r = [] /\ exists units, u = CompUnitAST (nodes ++ units) /\
                          forallb top_level units = true.
Proof.
  induction fuel as [|f IH]; intros n nodes ts u r H.
  - simpl in H. destruct ts; [|discriminate].
    injection H as <- <-. split; [reflexivity|].
    exists []. rewrite app_nil_r. auto.
  - simpl in H. destruct (is_done ts) eqn:Hd.
    + destruct ts; [|discriminate].
      injection H as <- <-. split; [reflexivity|].
      exists []. rewrite app_nil_r. auto.
    + res_cases H;
        try match goal with
        | Hv : var_decl _ _ = Ok _ _ |- _ =>
            apply var_decl_shape in Hv as (? & ? & ->)
        | Hv : function_def _ _ = Ok _ _ |- _ =>
            apply function_def_shape in Hv as (? & ? & ? & ? & ->)
        end;
        apply IH in H as [-> (us & -> & Hus)]; split; try reflexivity;
        eexists (_ :: us); rewrite <- app_assoc; split; try reflexivity;
        exact Hus.
Qed.

(** A successful parse of a program consumes every token and yields a
    [CompUnit] whose units are all variable declarations or function
    definitions. *)
Theorem parsing_result : forall fuel ts u r,
  parsing fuel ts = Ok u r ->
  r = [] /\ exists units, u = CompUnitAST units /\ forallb top_level units = true.
Proof.
  intros fuel ts u r H. apply program_loop_result in H. exact H.
Qed.

Lemma parsing_result_witness :
  parsing 6 [tw KW_INT; tid "a"; tw SEMICON] =
    Ok (CompUnitAST [VarDeclAST false [VarDefAST false (IdAST "a" var_t false []) None]]) [] /\
  ([] : list token) = [] /\
  exists units, CompUnitAST [VarDeclAST false [VarDefAST false (IdAST "a" var_t false []) None]]
                = CompUnitAST units /\ forallb top_level units = true.
Proof.
  split; [reflexivity|].
  apply (parsing_result 6 [tw KW_INT; tid "a"; tw SEMICON]). reflexivity.
Defined.

(** The driver dispatches on the leading token of each top-level unit: any
    token other than [const], [void] and [int] (a [char], say, so that a
    [char] function is never reached) stops it with status 233, and an
    [int] not followed by an identifier stops it with status 3. *)
Theorem program_dispatch_errors : forall fuel n nodes,
  (forall t ts, ~ In (tag_of t) [KW_CONST; KW_VOID; KW_INT] ->
   program_loop (S fuel) n nodes (t :: ts) = Exit 233%Z) /\
  (forall ts, tag_of (cur ts) <> ID ->
   program_loop (S fuel) n nodes (Word KW_INT :: ts) = Exit 3%Z).
Proof.
  intros fuel n nodes. split.
  - intros t ts Hn. simpl. unfold match_token. simpl.
    destruct (tag_of t); try reflexivity; exfalso; apply Hn; simpl; tauto.
  - intros ts Hn. simpl. unfold match_token. simpl.
    destruct (tag_of (cur ts)); try reflexivity; congruence.
Qed.

Lemma program_dispatch_errors_witness :
  (~ In (tag_of (tw KW_CHAR)) [KW_CONST; KW_VOID; KW_INT] /\
   program_loop 5 5 [] [tw KW_CHAR; tid "f"] = Exit 233%Z) /\
  (tag_of (cur [tnum 1]) <> ID /\
   program_loop 5 5 [] [tw KW_INT; tnum 1] = Exit 3%Z).
Proof.
  split; split.
  - simpl. intuition discriminate.
  - apply (proj1 (program_dispatch_errors 4 5 [])). simpl. intuition discriminate.
  - discriminate.
  - apply (proj2 (program_dispatch_errors 4 5 [])). discriminate.
Defined.

Lemma comma_more_forall : forall (P : AST -> Prop) fuel p acc ts xs r,
  (forall ts x r, p ts = Ok x r -> P x) -> Forall P acc ->
  comma_more fuel p acc ts = Ok xs r ->
  Forall P xs /\ exists ys, xs = acc ++ ys.
Proof.
  intros P. induction fuel as [|f IH]; intros p acc ts xs r Hp Ha H; simpl in H;
    destruct (match_token COMMA ts); try discriminate;
    try (injection H as <- _; split; [exact Ha | exists []; symmetry; apply app_nil_r]).
  destruct (p (next ts)) as [x ts'| |] eqn:Hx; simpl in H; try discriminate.
  apply IH in H as [HF (ys & ->)];
    [| exact Hp | apply Forall_app; split; [exact Ha | constructor; eauto]].
  split; [exact HF|]. exists (x :: ys). rewrite <- app_assoc. reflexivity.
Qed.

Lemma comma_list_forall : forall (P : AST -> Prop) fuel p ts xs r,
  (forall ts x r, p ts = Ok x r -> P x) ->
  comma_list fuel p ts = Ok xs r -> Forall P xs /\ xs <> [].
Proof.
  intros P fuel p ts xs r Hp H. unfold comma_list in H.
  destruct (p ts) as [x ts1| |] eqn:Hx; simpl in H; try discriminate.
  apply comma_more_forall with (P := P) in H as [HF (ys & ->)];
    [| exact Hp | constructor; [eauto | constructor]].
  split; [exact HF | discriminate].
Qed.

Lemma init_val_wf_l : forall n ts v r,
  init_val n ts = Ok v r -> wf_init v = true.
Proof.
  induction n as [|n IH]; intros ts v r H; [discriminate|].
  res_cases H; injection H as <- _; try reflexivity.
  - apply comma_list_forall with (P := fun v => wf_init v = true) in Heqr0;
      [|exact IH].
    apply forallb_forall. intros x Hx.
    exact (proj1 (Forall_forall _ _) (proj1 Heqr0) x Hx).
  - simpl. eapply binary_add_expr; eauto.
Qed.

(** An initializer built by [init_val] is well formed: a scalar initializer
    holds exactly one expression, and an aggregate [{...}] holds only
    initializers, themselves well formed (possibly none, for [{}]). *)
Theorem init_val_wf : forall n ts v r,
  init_val n ts = Ok v r -> wf_init v = true.
Proof. exact init_val_wf_l. Qed.

Lemma init_val_wf_witness :
  init_val 8 [tw LBRACE; tnum 1; tw COMMA; tw LBRACE; tw RBRACE; tw RBRACE] =
    Ok (InitValAST array_t [InitValAST var_t [NumAST 1]; InitValAST array_t []]) [] /\
  wf_init (InitValAST array_t [InitValAST var_t [NumAST 1]; InitValAST array_t []]) = true.
Proof.
  split; [reflexivity|].
  apply (init_val_wf 8 [tw LBRACE; tnum 1; tw COMMA; tw LBRACE; tw RBRACE; tw RBRACE]
           _ []).
  reflexivity.
Defined.

Lemma var_def_wf_l : forall n c ts d r,
  var_def n c ts = Ok d r -> wf_var_def c d.
Proof.
  intros [|n] c ts d r H; [discriminate|]. simpl in H.
  destruct (negb (match_token ID ts)); [discriminate|].
  destruct (bracket_dims n (binary_add n) 454%Z [] (next ts)) as [dims ts1| |];
    simpl in H; try discriminate.
  destruct (match_token ASSIGN ts1).
  - destruct (init_val n (next ts1)) as [v ts2| |] eqn:Hi; simpl in H;
      try discriminate.
    injection H as <- _.
    destruct dims; do 4 eexists; (split; [reflexivity|]);
      (split; [split; congruence|]);
      (split; [discriminate|]);
      intros v' Hv; injection Hv as <-; eapply init_val_wf_l; eauto.
  - destruct c; [discriminate|]. injection H as <- _.
    destruct dims; do 4 eexists; (split; [reflexivity|]);
      (split; [split; congruence|]);
      (split; [discriminate|]); discriminate.
Qed.



Lemma var_decl_wf_l : forall n ts d r,
  var_decl n ts = Ok d r ->
  exists defs, d = VarDeclAST (match_token KW_CONST ts) defs /\ defs <> [] /\
               Forall (wf_var_def (match_token KW_CONST ts)) defs.
Proof.
  intros [|n] ts d r H; [discriminate|]. simpl in H.
  destruct (match_token KW_CONST ts);
    (destruct (negb (match_token KW_INT _)); [discriminate|]);
    match type of H with
    | bind (comma_list _ ?p ?t) _ = _ =>
        destruct (comma_list n p t) as [defs ts1| |] eqn:Hc; simpl in H;
          try discriminate
    end;
    (destruct (negb (match_token SEMICON ts1)); [discriminate|]);
    injection H as <- _; exists defs;
    (split; [reflexivity|]);
    match goal with
    | |- _ /\ Forall (wf_var_def ?c) _ =>
        apply comma_list_forall with (P := wf_var_def c) in Hc as [HF Hn];
        eauto using var_def_wf_l
    end.
Qed.

(** A declaration built by [var_decl] is a [VarDecl] whose const flag is
    whether it starts with [const], and which holds at least one variable
    definition, each built with that same flag. *)
Theorem var_decl_wf : forall n ts d r,
  var_decl n ts = Ok d r ->
  exists defs, d = VarDeclAST (match_token KW_CONST ts) defs /\ defs <> [] /\
               Forall (wf_var_def (match_token KW_CONST ts)) defs.
Proof. exact var_decl_wf_l. Qed.

Lemma var_decl_wf_witness :
  var_decl 8 [tw KW_CONST; tw KW_INT; tid "a"; tw ASSIGN; tnum 1; tw COMMA;
              tid "b"; tw ASSIGN; tnum 2; tw SEMICON] =
    Ok (VarDeclAST true
          [VarDefAST true (IdAST "a" var_t true []) (Some (InitValAST var_t [NumAST 1]));
           VarDefAST true (IdAST "b" var_t true []) (Some (InitValAST var_t [NumAST 2]))])
       [] /\
  exists defs,
    VarDeclAST true
      [VarDefAST true (IdAST "a" var_t true []) (Some (InitValAST var_t [NumAST 1]));
       VarDefAST true (IdAST "b" var_t true []) (Some (InitValAST var_t [NumAST 2]))]
    = VarDeclAST (match_token KW_CONST
                    [tw KW_CONST; tw KW_INT; tid "a"; tw ASSIGN; tnum 1; tw COMMA;
                     tid "b"; tw ASSIGN; tnum 2; tw SEMICON]) defs /\
    defs <> [] /\
    Forall (wf_var_def (match_token KW_CONST
                          [tw KW_CONST; tw KW_INT; tid "a"; tw ASSIGN; tnum 1;
                           tw COMMA; tid "b"; tw ASSIGN; tnum 2; tw SEMICON])) defs.
Proof.
  split; [reflexivity|].
  apply (var_decl_wf 8 [tw KW_CONST; tw KW_INT; tid "a"; tw ASSIGN; tnum 1; tw COMMA;
                        tid "b"; tw ASSIGN; tnum 2; tw SEMICON] _ []).
  reflexivity.
Defined.

Lemma bracket_dims_acc : forall fuel p code acc ts xs r,
  bracket_dims fuel p code acc ts = Ok xs r ->
  exists ys, xs = acc ++ ys /\ (match_token LBRACKET ts = true -> ys <> []).
Proof.
  induction fuel as [|f IH]; intros p code acc ts xs r H; simpl in H;
    destruct (match_token LBRACKET ts);
    try discriminate;
    try (injection H as <- _; exists []; split;
         [symmetry; apply app_nil_r | discriminate]).
  destruct (p (next ts)) as [e ts'| |]; simpl in H; try discriminate.
  destruct (match_token RBRACKET ts'); try discriminate.
  apply IH in H as (ys & -> & _).
  exists (e :: ys). split; [rewrite <- app_assoc; reflexivity | discriminate].
Qed.

Lemma fold_binary_lval : forall e0 l x k pos,
  fold_binary e0 l = LValAST x k pos -> l = [] /\ e0 = LValAST x k pos.
Proof.
  intros e0 l x k pos H.
  destruct l as [|[o y] l] using rev_ind; [auto|].
  unfold fold_binary in H. rewrite fold_left_app in H. discriminate.
Qed.

Lemma binary_lval : forall fuel p ops ts x k pos r,
  (forall ts x k pos r, p ts = Ok (LValAST x k pos) r -> (k = var_t <-> pos = [])) ->
  binary fuel p ops ts = Ok (LValAST x k pos) r -> (k = var_t <-> pos = []).
Proof.
  intros fuel p ops ts x k pos r Hp H.
  destruct (binary_inv _ _ _ _ _ _ H) as (e0 & r0 & l & H0 & _ & He).
  symmetry in He. apply fold_binary_lval in He as [-> ->]. eauto.
Qed.

Lemma expr_lval : forall n,
  (forall ts x k pos r, unary n ts = Ok (LValAST x k pos) r -> (k = var_t <-> pos = [])) /\
  (forall ts x k pos r, binary_mul n ts = Ok (LValAST x k pos) r -> (k = var_t <-> pos = [])) /\
  (forall ts x k pos r, binary_add n ts = Ok (LValAST x k pos) r -> (k = var_t <-> pos = [])).
Proof.
  induction n as [|n (IHu & IHm & IHa)]; [repeat split; discriminate|].
  split; [|split].
  - intros ts x k pos r H. res_cases H; try (injection H; discriminate).
    + injection H as -> _. eauto.
    + injection H as <- <- <- _.
      apply bracket_dims_acc in Heqr0 as (ys & -> & Hy).
      specialize (Hy ltac:(assumption)). split; [discriminate | tauto].
    + injection H as <- <- <- _. tauto.
  - intros ts x k pos r H. eapply binary_lval; [exact IHu | exact H].
  - intros ts x k pos r H. eapply binary_lval; [exact IHm | exact H].
Qed.

Lemma while_loop_shape : forall n ts s r,
  while_loop n ts = Ok s r -> exists c b, s = WhileAST c b.
Proof.
  intros [|n] ts s r H; [discriminate|].
  res_cases H; injection H as <- _; eauto.
Qed.

Lemma if_else_shape : forall n ts s r,
  if_else n ts = Ok s r -> exists c t e, s = IfAST c t e.
Proof.
  intros [|n] ts s r H; [discriminate|].
  res_cases H; injection H as <- _; eauto.
Qed.

(** A left-value built by the expression tiers (and thus every assignment
    target) is of kind [var] exactly when it has no index: [a] gives
    [LVal(a, var, [])], [a[i][j]] gives [LVal(a, array, [i; j])].  The
    target of an [Assign] statement is always such a left-value. *)
Theorem lval_kind_matches_index : forall n,
  (forall ts x k pos r, binary_add n ts = Ok (LValAST x k pos) r ->
   (k = var_t <-> pos = [])) /\
  (forall ts l rhs r, statement n ts = Ok (StmtAST (AssignAST l rhs)) r ->
   exists x k pos, l = LValAST x k pos /\ (k = var_t <-> pos = [])).
Proof.
  intros n. split; [apply (expr_lval n)|].
  intros ts l rhs r H. destruct n as [|n]; [discriminate|].
  res_cases H;
    try (injection H as Hs _; subst;
         match goal with
         | Hb : block _ _ = Ok _ _ |- _ =>
             apply block_result in Hb as (? & Hx); discriminate Hx
         | Hw : while_loop _ _ = Ok _ _ |- _ =>
             apply while_loop_shape in Hw as (? & ? & Hx); discriminate Hx
         | Hi : if_else _ _ = Ok _ _ |- _ =>
             apply if_else_shape in Hi as (? & ? & ? & Hx); discriminate Hx
         | Ha : binary_add _ _ = Ok ?e _, Hl : is_lval ?e = true |- _ =>
             destruct e; try discriminate Hl;
             eexists _, _, _; split; [reflexivity|];
             eapply (expr_lval n); exact Ha
         | Ha : binary_add _ _ = Ok (AssignAST _ _) _ |- _ =>
             apply binary_add_expr in Ha; discriminate
         end).
Qed.

Lemma lval_kind_matches_index_witness :
  statement 8 [tid "a"; tw LBRACKET; tnum 1; tw RBRACKET; tw ASSIGN; tnum 2;
               tw SEMICON] =
    Ok (StmtAST (AssignAST (LValAST "a" array_t [NumAST 1]) (NumAST 2))) [] /\
  exists x k pos, LValAST "a" array_t [NumAST 1] = LValAST x k pos /\
                  (k = var_t <-> pos = []).
Proof.
  split; [reflexivity|].
  apply (proj2 (lval_kind_matches_index 8)
           [tid "a"; tw LBRACKET; tnum 1; tw RBRACKET; tw ASSIGN; tnum 2; tw SEMICON]
           _ (NumAST 2) []).
  reflexivity.
Defined.









Lemma statement_shape : forall n ts s r,
  statement n ts = Ok s r -> exists x, s = StmtAST x.
Proof.
  intros [|n] ts s r H; [discriminate|].
  res_cases H; injection H as <- _; eauto.
Qed.

Lemma block_loop_forall : forall (P : AST -> Prop) fuel d s acc ts xs r,
  (forall ts x r, d ts = Ok x r -> P x) ->
  (forall ts x r, s ts = Ok x r -> P x) ->
  Forall P acc -> block_loop fuel d s acc ts = Ok xs r -> Forall P xs.
Proof.
  intros P. induction fuel as [|f IH]; intros d s acc ts xs r Hd Hs Ha H;
    simpl in H; destruct (match_token RBRACE ts);
    try discriminate; try (injection H as <- _; exact Ha).
  destruct (match_token KW_CONST ts || match_token KW_INT ts);
    [destruct (d ts) eqn:Hx | destruct (s ts) eqn:Hx]; simpl in H; try discriminate;
    (eapply IH; [exact Hd | exact Hs | | exact H]);
    apply Forall_app; split; eauto.
Qed.

Lemma param_shape_ok : forall n ts p r,
  param n ts = Ok p r -> param_shape p.
Proof.
  intros n ts p r H. unfold param in H.
  res_cases H; injection H as <- _;
    [ match goal with
      | Hd : bracket_dims _ _ _ _ _ = Ok _ _ |- _ =>
          apply bracket_dims_acc in Hd as (ys & -> & _)
      end; eexists; right; exists ys; reflexivity
    | eexists; left; reflexivity ].
Qed.

Lemma param_list_shape : forall n ts ps r,
  param_list n ts = Ok ps r -> Forall param_shape ps.
Proof.
  intros n ts ps r H. unfold param_list in H.
  res_cases H; injection H as <- _; [|constructor].
  eapply comma_list_forall; [|eassumption]. exact (param_shape_ok n).
Qed.

Lemma block_items_ok_l : forall n ts b r,
  block n ts = Ok b r -> exists l, b = BlockAST l /\ forallb block_item l = true.
Proof.
  intros [|n] ts b r H; [discriminate|].
  res_cases H; injection H as <- _; eexists; (split; [reflexivity|]); [reflexivity|].
  apply forallb_forall. intros x Hx.
  eapply (block_loop_forall (fun x => block_item x = true)) in Heqr0;
    [exact (proj1 (Forall_forall _ _) Heqr0 x Hx) | | | constructor].
  - intros ts' d r' Hd. apply var_decl_shape in Hd as (? & ? & ->). reflexivity.
  - intros ts' s r' Hs. apply statement_shape in Hs as (? & ->). reflexivity.
Qed.

(** A block built by [block] holds only variable declarations and
    statements, in the order they appear. *)
Theorem block_items_ok : forall n ts b r,
  block n ts = Ok b r -> exists l, b = BlockAST l /\ forallb block_item l = true.
Proof. exact block_items_ok_l. Qed.

Lemma block_items_ok_witness :
  block 8 [tw LBRACE; tw KW_INT; tid "a"; tw SEMICON; tid "a"; tw ASSIGN; tnum 1;
           tw SEMICON; tw RBRACE] =
    Ok (BlockAST [VarDeclAST false [VarDefAST false (IdAST "a" var_t false []) None];
                  StmtAST (AssignAST (LValAST "a" var_t []) (NumAST 1))]) [] /\
  exists l, BlockAST [VarDeclAST false [VarDefAST false (IdAST "a" var_t false []) None];
                      StmtAST (AssignAST (LValAST "a" var_t []) (NumAST 1))]
            = BlockAST l /\ forallb block_item l = true.
Proof.
  split; [reflexivity|].
  apply (block_items_ok 8 [tw LBRACE; tw KW_INT; tid "a"; tw SEMICON; tid "a";
                           tw ASSIGN; tnum 1; tw SEMICON; tw RBRACE] _ []).
  reflexivity.
Defined.

Lemma function_def_wf_l : forall n ts d r,
  function_def n ts = Ok d r ->
  exists t name ps body, d = FuncDefAST t name ps (BlockAST body) /\
                         Forall param_shape ps /\ forallb block_item body = true.
Proof.
  intros n ts d r H. unfold function_def in H.
  res_cases H; injection H as <- _;
    match goal with
    | Hb : block _ _ = Ok ?b _, Hp : param_list _ _ = Ok _ _ |- _ =>
        apply block_items_ok_l in Hb as (l & -> & Hl);
        apply param_list_shape in Hp
    end; do 4 eexists; eauto.
Qed.

(** A function definition built by [function_def] has a block as its body,
    and each of its parameters is a non-const [Id]: a scalar, or an array
    whose first dimension is the marker [Num(0)] standing for the empty
    [[]]. *)
Theorem function_def_wf : forall n ts d r,
  function_def n ts = Ok d r ->
  exists t name ps body, d = FuncDefAST t name ps (BlockAST body) /\
                         Forall param_shape ps /\ forallb block_item body = true.
Proof. exact function_def_wf_l. Qed.

Lemma function_def_wf_witness :
  function_def 8 [tw KW_VOID; tid "f"; tw LPAREN; tw KW_INT; tid "a"; tw LBRACKET;
                  tw RBRACKET; tw RPAREN; tw LBRACE; tw RBRACE] =
    Ok (FuncDefAST void_t "f" [IdAST "a" array_t false [NumAST 0]] (BlockAST [])) [] /\
  exists t name ps body,
    FuncDefAST void_t "f" [IdAST "a" array_t false [NumAST 0]] (BlockAST [])
    = FuncDefAST t name ps (BlockAST body) /\
    Forall param_shape ps /\ forallb block_item body = true.
Proof.
  split; [reflexivity|].
  apply (function_def_wf 8 [tw KW_VOID; tid "f"; tw LPAREN; tw KW_INT; tid "a";
                            tw LBRACKET; tw RBRACKET; tw RPAREN; tw LBRACE;
                            tw RBRACE] _ []).
  reflexivity.
Defined.

Lemma match_token_tag : forall g ts,
  match_token g ts = true -> tag_of (cur ts) = g.
Proof. intros g ts H. apply internal_Tag_dec_bl, H. Qed.

Lemma function_def_void : forall n ts d r,
  match_token KW_VOID ts = true -> function_def n ts = Ok d r ->
  exists name ps b, d = FuncDefAST void_t name ps b.
Proof.
  intros n ts d r Hv H. unfold function_def in H.
  assert (Hi : match_token KW_INT ts = false /\ match_token KW_CHAR ts = false)
    by (unfold match_token; rewrite (match_token_tag _ _ Hv); auto).
  destruct Hi as [Hi Hc]. rewrite Hi, Hc in H.
  res_cases H; injection H as <- _; eauto.
Qed.

Lemma top_var_def_wf : forall name dims init,
  (forall v, init = Some v -> wf_init v = true) ->
  wf_var_def false
    (VarDefAST false (match dims with
                      | [] => IdAST name var_t false []
                      | _ => IdAST name array_t false dims
                      end) init).
Proof.
  intros name dims init Hi.
  destruct dims; do 4 eexists; (split; [reflexivity|]);
    (split; [split; congruence|]); (split; [discriminate|]); exact Hi.
Qed.

Lemma top_decl_wf : forall n vd t defs r,
  wf_var_def false vd -> comma_more n (var_def n false) [vd] t = Ok defs r ->
  unit_wf (VarDeclAST false defs).
Proof.
  intros n vd t defs r Hvd Hm. left.
  apply comma_more_forall with (P := wf_var_def false) in Hm as [HF (ys & ->)].
  - do 2 eexists. split; [reflexivity|]. split; [discriminate | exact HF].
  - intros ? ? ? Hx. eapply var_def_wf_l. exact Hx.
  - constructor; [exact Hvd | constructor].
Qed.

Lemma program_loop_units : forall fuel n nodes ts u r,
  Forall unit_wf nodes -> program_loop fuel n nodes ts = Ok u r ->
  exists us, u = CompUnitAST us /\ Forall unit_wf us.
Proof.
  induction fuel as [|f IH]; intros n nodes ts u r Hn H; simpl in H.
  - destruct (is_done ts); [|discriminate]. injection H as <- _. eauto.
  - destruct (is_done ts); [injection H as <- _; eauto|].
    destruct (match_token KW_CONST ts) eqn:Hc; [|destruct (match_token KW_VOID ts) eqn:Hv;
      [|destruct (match_token KW_INT ts) eqn:Hi]]; try discriminate.
    + destruct (var_decl n ts) as [d ts1| |] eqn:Hd; simpl in H; try discriminate.
      eapply IH; [|exact H]. apply Forall_app; split; [exact Hn|]. constructor; [|constructor].
      left. apply var_decl_wf_l in Hd as (defs & -> & Hne & HF). eauto.
    + destruct (function_def n ts) as [d ts1| |] eqn:Hd; simpl in H; try discriminate.
      eapply IH; [|exact H]. apply Forall_app; split; [exact Hn|]. constructor; [|constructor].
      right. pose proof (function_def_void _ _ _ _ Hv Hd) as (? & ? & ? & Ht).
      apply function_def_wf_l in Hd as (t & name & ps & body & -> & Hp & Hb).
      injection Ht as -> _ _ _. do 4 eexists. repeat split; eauto; discriminate.
    + destruct (negb (match_token ID (next ts))); [discriminate|].
      destruct (match_token LPAREN (next (next ts))).
      * destruct (param_list n (next (next (next ts)))) as [ps ts1| |] eqn:Hp;
          simpl in H; try discriminate.
        destruct (block n (next ts1)) as [b ts2| |] eqn:Hb; simpl in H; try discriminate.
        eapply IH; [|exact H]. apply Forall_app; split; [exact Hn|].
        constructor; [|constructor]. right.
        apply param_list_shape in Hp. apply block_items_ok_l in Hb as (l & -> & Hl).
        do 4 eexists. repeat split; eauto; discriminate.
      * destruct (bracket_dims n (binary_add n) 454%Z [] (next (next ts)))
          as [dims ts1| |]; simpl in H; try discriminate.
        match type of H with
        | bind (if ?b then _ else _) _ = _ => destruct b
        end;
        [destruct (init_val n (next ts1)) as [v ts2| |] eqn:Hiv; simpl in H;
           try discriminate | simpl in H];
        match type of H with
        | bind (comma_more _ _ [?vd] ?t) _ = _ =>
            destruct (comma_more n (var_def n false) [vd] t) as [defs ts3| |] eqn:Hm;
            simpl in H; try discriminate;
            assert (Hvd : wf_var_def false vd)
        end;
        try (apply top_var_def_wf; intros v' Hv'; injection Hv' as <-;
             eapply init_val_wf_l; eauto);
        try (apply top_var_def_wf; discriminate);
        (destruct (negb (match_token SEMICON ts3)); [discriminate|]);
        (eapply IH; [|exact H]); apply Forall_app; (split; [exact Hn|]);
        (constructor; [|constructor]); eapply top_decl_wf; eauto.
Qed.

(** Every unit of a successfully parsed program is well formed: a
    declaration holds at least one well-formed variable definition, and a
    function definition returns [int] or [void] (never [char]), has
    parameters of the parameter shape and a block of declarations and
    statements as its body.  This covers both the units parsed by the rules
    and the [int] units that the driver builds inline. *)
Theorem parsing_units_wf : forall fuel ts u r,
  parsing fuel ts = Ok u r -> exists us, u = CompUnitAST us /\ Forall unit_wf us.
Proof.
  intros fuel ts u r H. eapply program_loop_units; [constructor | exact H].
Qed.

Lemma parsing_units_wf_witness :
  parsing 8 [tw KW_INT; tid "a"; tw ASSIGN; tnum 1; tw SEMICON;
             tw KW_INT; tid "f"; tw LPAREN; tw RPAREN; tw LBRACE; tw RBRACE] =
    Ok (CompUnitAST
          [VarDeclAST false [VarDefAST false (IdAST "a" var_t false [])
                               (Some (InitValAST var_t [NumAST 1]))];
           FuncDefAST int_t "f" [] (BlockAST [])]) [] /\
  exists us, CompUnitAST
               [VarDeclAST false [VarDefAST false (IdAST "a" var_t false [])
                                    (Some (InitValAST var_t [NumAST 1]))];
                FuncDefAST int_t "f" [] (BlockAST [])] = CompUnitAST us /\
             Forall unit_wf us.
Proof.
  split; [reflexivity|].
  apply (parsing_units_wf 8 [tw KW_INT; tid "a"; tw ASSIGN; tnum 1; tw SEMICON;
                             tw KW_INT; tid "f"; tw LPAREN; tw RPAREN; tw LBRACE;
                             tw RBRACE] _ []).
  reflexivity.
Defined.




(** A token that cannot start an expression (anything but [(], a number,
    [+], [-], [!] or an identifier) where an expression is expected stops the
    parse with status 55, whichever tier asked for the expression: [unary],
    [binary_add], [binary_or] (the conditions of [if] and [while]), and a
    statement that starts with no statement keyword, so that a stray [else]
    or [)] is rejected with 55. *)
Theorem non_expression_exit_55 : forall n ts,
  expr_lead (tag_of (cur ts)) = false ->
  unary (S n) ts = Exit 55%Z /\
  binary_add (S (S (S n))) ts = Exit 55%Z /\
  binary_or (S (S (S (S (S (S (S n))))))) ts = Exit 55%Z /\
  (stmt_keyword (tag_of (cur ts)) = false ->
   statement (S (S (S (S n)))) ts = Exit 55%Z).
Proof.
  intros n ts Hl.
  assert (Hu : unary (S n) ts = Exit 55%Z).
  { simpl. unfold match_token.
    destruct (tag_of (cur ts)); try discriminate Hl; reflexivity. }
  assert (Hm : binary_mul (S (S n)) ts = Exit 55%Z)
    by (rewrite binary_mul_S; unfold binary; rewrite Hu; reflexivity).
  assert (Ha : binary_add (S (S (S n))) ts = Exit 55%Z)
    by (rewrite binary_add_S; unfold binary; rewrite Hm; reflexivity).
  assert (Hr : binary_relation (S (S (S (S n)))) ts = Exit 55%Z)
    by (rewrite binary_relation_S; unfold binary; rewrite Ha; reflexivity).
  assert (He : binary_eq (S (S (S (S (S n))))) ts = Exit 55%Z)
    by (unfold binary_eq, binary; rewrite Hr; reflexivity).
  assert (Hd : binary_and (S (S (S (S (S (S n)))))) ts = Exit 55%Z)
    by (unfold binary_and, binary; rewrite He; reflexivity).
  split; [exact Hu|]. split; [exact Ha|]. split.
  - unfold binary_or, binary. rewrite Hd. reflexivity.
  - intros Hk. rewrite (statement_expr_branch _ _ Hk), Ha. reflexivity.
Qed.

Lemma non_expression_exit_55_witness :
  expr_lead (tag_of (cur [tw KW_ELSE; tid "a"])) = false /\
  unary 1 [tw KW_ELSE; tid "a"] = Exit 55%Z /\
  binary_add 3 [tw KW_ELSE; tid "a"] = Exit 55%Z /\
  binary_or 7 [tw KW_ELSE; tid "a"] = Exit 55%Z /\
  (stmt_keyword (tag_of (cur [tw KW_ELSE; tid "a"])) = false ->
   statement 4 [tw KW_ELSE; tid "a"] = Exit 55%Z).
Proof.
  split; [reflexivity|].
  apply (non_expression_exit_55 0 [tw KW_ELSE; tid "a"]). reflexivity.
Defined.

Lemma fold_map_eq : forall (k : string -> string -> string) (f : AST -> string)
    (g : AST -> AST) us s,
  Forall (fun u => f (g u) = f u) us ->
  fold_left (fun out u => k out (f u)) (map g us) s =
  fold_left (fun out u => k out (f u)) us s.
Proof.
  intros k f g us. induction us as [|u us IH]; intros s H; [reflexivity|].
  inversion H as [|? ? Hu Hus]; subst. simpl. rewrite Hu. apply IH, Hus.
Qed.

Section RenderFacts.
Variable type_to_string : Ty -> string.
Variable vartype_to_string : VarType -> string.
Variable op_to_string : Operator -> string.
Variable int_to_string : Z -> string.

Local Abbreviation render :=
  (to_string type_to_string vartype_to_string op_to_string int_to_string).

(** The rendering of ast.h forgets part of the tree: two trees that agree
    once the name and arguments of every call, the initializer of every
    variable definition, the dimensions of every [Id], the values of every
    initializer and the indices of every left-value are wiped render to the
    same string.  So [int a[2] = {1, 2};] and [int a[3];] are printed alike,
    and so are [f(x)] and [g()]. *)
Lemma lines_erase : forall us s,
  Forall (fun u => render (erase u) = render u) us ->
  fold_left (fun out u => out ++ nl ++ render u)%string (map erase us) s =
  fold_left (fun out u => out ++ nl ++ render u)%string us s.
Proof. intros us s H. apply (fold_map_eq (fun out x => out ++ nl ++ x)%string), H. Qed.

Lemma concat_erase : forall us s,
  Forall (fun u => render (erase u) = render u) us ->
  fold_left (fun out u => out ++ render u)%string (map erase us) s =
  fold_left (fun out u => out ++ render u)%string us s.
Proof. intros us s H. apply (fold_map_eq (fun out x => out ++ x)%string), H. Qed.

(** The rendering of ast.h forgets part of the tree: two trees that agree
    once the name and arguments of every call, the initializer of every
    variable definition, the dimensions of every [Id], the values of every
    initializer and the indices of every left-value are wiped render to the
    same string.  So [int a[2] = {1, 2};] and [int a[3];] are printed alike,
    and so are [f(x)] and [g()]. *)
Theorem to_string_ignores_erased : forall a, render (erase a) = render a.
Proof.
  fix IH 1. intros a.
  destruct a; cbn [erase to_string map option_map];
    repeat match goal with
    | |- context [option_map erase ?o] => destruct o; cbn [to_string option_map]
    | |- render (match ?k with return_c => _ | _ => _ end) = _ =>
        destruct k; cbn [to_string option_map]
    end;
    repeat match goal with
    | |- context [fold_left (fun out u => out ++ nl ++ render u)%string
                    (map erase ?l) ?s0] =>
        rewrite (lines_erase l s0)
          by exact ((fix IHl (l0 : list AST)
                       : Forall (fun u => render (erase u) = render u) l0 :=
                       match l0 with
                       | [] => Forall_nil _
                       | u :: l' => Forall_cons u (IH u) (IHl l')
                       end) l)
    | |- context [fold_left (fun out u => out ++ render u)%string
                    (map erase ?l) ?s0] =>
        rewrite (concat_erase l s0)
          by exact ((fix IHl (l0 : list AST)
                       : Forall (fun u => render (erase u) = render u) l0 :=
                       match l0 with
                       | [] => Forall_nil _
                       | u :: l' => Forall_cons u (IH u) (IHl l')
                       end) l)
    | |- context [render (erase ?x)] => rewrite (IH x)
    end; reflexivity.
Qed.
End RenderFacts.

Lemma binary_or_expr : forall n ts e r,
  binary_or n ts = Ok e r -> is_expr e = true.
Proof.
  intros [|[|[|[|n]]]] ts e r H; try discriminate;
    repeat (eapply binary_result; [|exact H]; clear; intros ts e r H;
            try (eapply binary_add_expr; exact H)).
Qed.

Lemma expr_stmt_ok : forall e, is_expr e = true -> stmt_ok (StmtAST e) = true.
Proof. intros [] H; try discriminate H; reflexivity. Qed.

Lemma statement_ok : forall n,
  (forall ts s r, statement n ts = Ok s r -> stmt_ok s = true) /\
  (forall ts s r, if_else n ts = Ok s r -> stmt_ok (StmtAST s) = true) /\
  (forall ts s r, while_loop n ts = Ok s r -> stmt_ok (StmtAST s) = true) /\
  (forall ts s r, block n ts = Ok s r -> stmt_ok (StmtAST s) = true).
Proof.
  induction n as [|n (IHs & IHi & IHw & IHb)];
    [repeat split; intros ts s r H; discriminate|].
  repeat split; intros ts s r H; res_cases H; injection H as <- _;
    repeat match goal with
    | Ha : binary_add _ _ = Ok _ _ |- _ => apply binary_add_expr in Ha
    | Ho : binary_or _ _ = Ok _ _ |- _ => apply binary_or_expr in Ho
    | Hs : statement _ _ = Ok _ _ |- _ => apply IHs in Hs
    | Hs : if_else _ _ = Ok _ _ |- _ => apply IHi in Hs
    | Hs : while_loop _ _ = Ok _ _ |- _ => apply IHw in Hs
    | Hs : block _ _ = Ok _ _ |- _ => apply IHb in Hs
    end;
    try (apply expr_stmt_ok; assumption);
    try (simpl; repeat rewrite Bool.andb_true_iff; tauto);
    try (simpl; destruct (control_of _); reflexivity);
    try assumption.
  simpl. apply forallb_forall. intros x Hx.
  match goal with
  | Hl : block_loop _ _ _ _ _ = Ok _ _ |- _ =>
      eapply (block_loop_forall
                (fun u => (match u with VarDeclAST _ _ => true
                           | _ => stmt_ok u end) = true)) in Hl;
        [exact (proj1 (Forall_forall _ _) Hl x Hx) | | | constructor]
  end.
  - intros ? ? ? Hd. apply var_decl_shape in Hd as (? & ? & ->). reflexivity.
  - intros ? u ? Hs. pose proof (statement_shape _ _ _ _ Hs) as (? & ->).
    apply IHs in Hs. exact Hs.
Qed.

(** Every statement built by [statement] is well formed in the sense of
    [stmt_ok]: the conditions of [if] and [while] are expressions and their
    branches statements, a [break] or [continue] never carries an operand, a
    [return] carries an expression or nothing, the target of an assignment is
    a left-value, and a block holds declarations and well-formed
    statements. *)
Theorem statement_wf : forall n ts s r,
  statement n ts = Ok s r -> stmt_ok s = true.
Proof. intros n. apply (statement_ok n). Qed.

Lemma statement_wf_witness :
  statement 20 [tw KW_WHILE; tw LPAREN; tid "a"; tw RPAREN; tw LBRACE;
                tw KW_IF; tw LPAREN; tid "b"; tw RPAREN; tw KW_BREAK; tw SEMICON;
                tw KW_ELSE; tid "a"; tw ASSIGN; tnum 0; tw SEMICON; tw RBRACE] =
    Ok (StmtAST (WhileAST (LValAST "a" var_t [])
          (StmtAST (BlockAST
             [StmtAST (IfAST (LValAST "b" var_t [])
                (StmtAST (ControlAST break_c None))
                (Some (StmtAST (AssignAST (LValAST "a" var_t []) (NumAST 0)))))])))) [] /\
  stmt_ok (StmtAST (WhileAST (LValAST "a" var_t [])
          (StmtAST (BlockAST
             [StmtAST (IfAST (LValAST "b" var_t [])
                (StmtAST (ControlAST break_c None))
                (Some (StmtAST (AssignAST (LValAST "a" var_t []) (NumAST 0)))))])))) = true.
Proof.
  split; [reflexivity|].
  apply (statement_wf 20 [tw KW_WHILE; tw LPAREN; tid "a"; tw RPAREN; tw LBRACE;
                tw KW_IF; tw LPAREN; tid "b"; tw RPAREN; tw KW_BREAK; tw SEMICON;
                tw KW_ELSE; tid "a"; tw ASSIGN; tnum 0; tw SEMICON; tw RBRACE] _ []).
  reflexivity.
Defined.

(** A parameter must be [int]: any other leading token ([char], say) stops
    with status 996; an [int] not followed by an identifier stops with 998,
    and an array parameter whose first bracket is not empty ([int a[3]])
    stops with 997. *)
Theorem param_errors : forall n,
  (forall t ts, tag_of t <> KW_INT -> param n (t :: ts) = Exit 996%Z) /\
  (forall t ts, tag_of t <> ID -> param n (Word KW_INT :: t :: ts) = Exit 998%Z) /\
  (forall x t ts, tag_of t <> RBRACKET ->
   param n (Word KW_INT :: Id_tok x :: Word LBRACKET :: t :: ts) = Exit 997%Z).
Proof.
  intros n. split; [|split].
  - intros [z|s|g] ts Ht; try reflexivity.
    destruct g; try reflexivity; exfalso; apply Ht; reflexivity.
  - intros [z|s|g] ts Ht; [reflexivity | exfalso; apply Ht; reflexivity |].
    destruct g; try reflexivity; exfalso; apply Ht; reflexivity.
  - intros x [z|s|g] ts Ht; try reflexivity.
    destruct g; try reflexivity; exfalso; apply Ht; reflexivity.
Qed.

Lemma param_errors_witness :
  (tag_of (tw KW_CHAR) <> KW_INT /\ param 3 [tw KW_CHAR; tid "c"] = Exit 996%Z) /\
  (tag_of (tnum 1) <> ID /\ param 3 [tw KW_INT; tnum 1] = Exit 998%Z) /\
  (tag_of (tnum 3) <> RBRACKET /\
   param 3 [tw KW_INT; tid "a"; tw LBRACKET; tnum 3; tw RBRACKET] = Exit 997%Z).
Proof.
  destruct (param_errors 3) as (H1 & H2 & H3).
  split; [|split]; (split; [discriminate|]).
  - apply H1. discriminate.
  - apply H2. discriminate.
  - apply H3. discriminate.
Defined.


